(** * TriCRF: parameter store, example model and L-BFGS driver interface

  A shallow embedding of the parts of the TriCRF sources that the
  specification speaks about:

  - [LBFGS::optimize] (LBFGS.h), the reverse-communication wrapper around
    the limited-memory BFGS routine;
  - the example model of Data.h ([Event], [Sequence], [TriSequence],
    [TriStringSequence], [Data<T>]);
  - the parameter store declared in Param.h, whose bodies live in
    Param.cpp;
  - the per-topic Viterbi search and the forward and backward recurrences
    declared in TriCRF1.h / TriCRF2.h.

  Machine integers are integers of [Z] with the wrap-around written out;
  [std::vector] is [list]; [std::map<std::string, size_t>] is a [gmap]. *)

From Stdlib Require Import ZArith Lia QArith PrimFloat Floats.
From stdpp Require Import base numbers list strings gmap sorting.

Local Open Scope Z_scope.

(** ** Machine integers *)

(** [size_t] on the 64-bit targets of the Makefile: arithmetic modulo 2^64. *)
Definition size_t_max : Z := 2 ^ 64.

Definition size_t_wrap (z : Z) : Z := z mod size_t_max.

(** [static_cast<int>(size)]: the low 32 bits, read as a signed integer. *)
Definition static_cast_int (z : Z) : Z := (z + 2 ^ 31) mod 2 ^ 32 - 2 ^ 31.

(** A buffer of [n] doubles (8 bytes each) that exists in a 64-bit address
  space; this is what a caller hands to [optimize] as [x] and [g]. *)
Definition addressable (n : Z) : Prop := 0 <= n /\ 8 * n < size_t_max.

(** ** Floating point *)

(** [double] is IEEE 754 binary64, the kernel's primitive [float]. *)
Abbreviation double := float.

(** The value [0.0], with which [std::vector<double>::resize] and
  [std::fill] initialise. *)
Definition dzero : double := 0%float.

(** ** LBFGS.h *)

Module LBFGS.

Section Optimizer.

(** [class Mcsrch;] is only forward-declared in the header. *)
Variable Mcsrch : Type.

(** The data members of [class LBFGS], in declaration order.  [mcsrch_]
    is a pointer, null ([None]) after construction. *)
Record t : Type := mk {
  iflag_ : Z; iscn : Z; nfev : Z; iycn : Z;
  point : Z; npt : Z; iter : Z; info : Z;
  ispt : Z; isyt : Z; iypt : Z; maxfev : Z;
  stp : double; stp1 : double;
  diag_ : list double;
  w_ : list double;
  mcsrch_ : option Mcsrch
}.

(** [explicit LBFGS()]: every scalar zero, both vectors empty. *)
Definition LBFGS_new : t :=
  mk 0 0 0 0 0 0 0 0 0 0 0 0 dzero dzero [] [] None.

(** Modelled from the spec: [LBFGS::clear] is declared in LBFGS.h and
    defined elsewhere.  Its documentation reads "Resets the optimizer to
    its initial state and frees all allocated memory"; the class
    documentation adds "Memory is cleared when optimization terminates
    (result=0)". *)
Definition clear (s : t) : t := LBFGS_new.

(** [std::vector<double>::resize(n)]: keep the first [n] elements, pad
    with value-initialised doubles. *)
Definition resize (n : Z) (v : list double) : list double :=
  take (Z.to_nat n) v ++ replicate (Z.to_nat n - length v)%nat dzero.

(** [std::vector::size()] as a [size_t]. *)
Definition vsize (v : list double) : Z := Z.of_nat (length v).

(** [std::vector::empty()]. *)
Definition empty (v : list double) : bool :=
  match v with [] => true | _ => false end.

Definition set_iflag (i : Z) (s : t) : t :=
  mk i (iscn s) (nfev s) (iycn s) (point s) (npt s) (iter s) (info s)
     (ispt s) (isyt s) (iypt s) (maxfev s) (stp s) (stp1 s)
     (diag_ s) (w_ s) (mcsrch_ s).

Definition set_diag (d : list double) (s : t) : t :=
  mk (iflag_ s) (iscn s) (nfev s) (iycn s) (point s) (npt s) (iter s)
     (info s) (ispt s) (isyt s) (iypt s) (maxfev s) (stp s) (stp1 s)
     d (w_ s) (mcsrch_ s).

Definition set_w (w : list double) (s : t) : t :=
  mk (iflag_ s) (iscn s) (nfev s) (iycn s) (point s) (npt s) (iter s)
     (info s) (ispt s) (isyt s) (iypt s) (maxfev s) (stp s) (stp1 s)
     (diag_ s) w (mcsrch_ s).

(** What one call of the private routine leaves behind: the buffers it
    was handed by pointer ([x], [diag], [w], [iflag]) and the object. *)
Record lbfgs_out : Type := mk_out {
  x_out : list double;
  diag_out : list double;
  w_out : list double;
  iflag_out : Z;
  this_out : t
}.

(** [void lbfgs_optimize(int size, int msize, double *x, double f,
    const double *g, double *diag, double *w, bool orthant, double C,
    int *iflag)] is declared in the header and defined in LBFGS.cpp; it
    is a parameter of the development. *)
Variable lbfgs_optimize :
  Z -> Z -> list double -> double -> list double ->
  list double -> list double -> bool -> double -> Z -> t -> lbfgs_out.

(** [static const int msize = 100;] *)
Definition msize : Z := 100.

(** The statuses of [optimize]. *)
Definition CONTINUE : Z := 1.
Definition CONVERGED : Z := 0.
Definition FAILED : Z := -1.

(** The first statement of [optimize]: allocate on an empty [w_],
    otherwise compare the size of [diag_] with [size].  [None] is the
    early [return -1]. *)
Definition optimize_prepare (size : Z) (s : t) : option t :=
  if empty (w_ s) then
    Some (set_diag (resize size (diag_ s))
           (set_w (resize (size_t_wrap (size * (2 * msize + 1) + 2 * msize))
                          (w_ s))
             (set_iflag 0 s)))
  else if negb (vsize (diag_ s) =? size) then None
  else Some s.

(** The call [lbfgs_optimize(static_cast<int>(size), msize, x, f, g,
    &diag_[0], &w_[0], orthant, C, &iflag_)] on a prepared object.  The
    three pointers alias the members, so what the routine wrote through
    them is what the members hold afterwards. *)
Definition optimize_call (size : Z) (x : list double) (f : double)
    (g : list double) (orthant : bool) (C : double) (s1 : t) : lbfgs_out :=
  lbfgs_optimize (static_cast_int size) msize x f g
                 (diag_ s1) (w_ s1) orthant C (iflag_ s1) s1.

Definition optimize_commit (o : lbfgs_out) : t :=
  set_iflag (iflag_out o)
    (set_w (w_out o) (set_diag (diag_out o) (this_out o))).

(** [int optimize(size_t size, double *x, double f, double *g,
    bool orthant, double C)]: the status, the contents of [x] and the
    object after the call. *)
Definition optimize (size : Z) (x : list double) (f : double)
    (g : list double) (orthant : bool) (C : double) (s : t)
    : Z * list double * t :=
  match optimize_prepare size s with
  | None => (-1, x, s)
  | Some s1 =>
      let o := optimize_call size x f g orthant C s1 in
      let s2 := optimize_commit o in
      if iflag_ s2 <? 0 then (-1, x_out o, s2)
      else if iflag_ s2 =? 0 then (0, x_out o, clear s2)
      else (1, x_out o, s2)
  end.

(** The value of [iflag_] that the tests at the end of [optimize] read,
    when the call gets that far. *)
Definition optimize_iflag (size : Z) (x : list double) (f : double)
    (g : list double) (orthant : bool) (C : double) (s : t) : option Z :=
  match optimize_prepare size s with
  | None => None
  | Some s1 => Some (iflag_out (optimize_call size x f g orthant C s1))
  end.

(** The statements of [optimize] that follow the call of the routine:
    the two tests of [iflag_] and the three returns. *)
Definition optimize_finish (o : lbfgs_out) : Z * list double * t :=
  let s2 := optimize_commit o in
  if iflag_ s2 <? 0 then (-1, x_out o, s2)
  else if iflag_ s2 =? 0 then (0, x_out o, clear s2)
  else (1, x_out o, s2).

(** The three components of what a call of [optimize] yields. *)
Definition status (r : Z * list double * t) : Z := r.1.1.
Definition params (r : Z * list double * t) : list double := r.1.2.
Definition object (r : Z * list double * t) : t := r.2.

(** The driver loop of the header's usage example: evaluate the
    objective and the gradient at the current [x], call [optimize], leave
    the loop on [result == 0] and on [result < 0].  [eval] is the caller's
    objective; [fuel] is [max_iterations]. *)
Fixpoint drive (eval : list double -> double * list double)
    (orthant : bool) (C : double) (fuel : nat) (size : Z)
    (x : list double) (s : t) : list Z * list double * t :=
  match fuel with
  | O => ([], x, s)
  | S fuel' =>
      let '(f, g) := eval x in
      let '(r, x', s') := optimize size x f g orthant C s in
      if r =? 0 then ([r], x', s')
      else if r <? 0 then ([r], x', s')
      else
        let '(rs, x'', s'') := drive eval orthant C fuel' size x' s' in
        (r :: rs, x'', s'')
  end.

(** The object after a completed first call with [n] parameters, and
    after any number of further calls with the same [n], none of which
    has terminated the run (status [0] clears the object). *)
Inductive allocated_for (n : Z) : t -> Prop :=
| allocated_first x f g orthant C r x' s' :
    optimize n x f g orthant C LBFGS_new = (r, x', s') ->
    r <> 0 ->
    allocated_for n s'
| allocated_again s x f g orthant C r x' s' :
    allocated_for n s ->
    optimize n x f g orthant C s = (r, x', s') ->
    r <> 0 ->
    allocated_for n s'.

(** *** Basic facts *)

Lemma length_resize (n : Z) (v : list double) :
  0 <= n -> vsize (resize n v) = n.
Proof.
  intros Hn. unfold vsize, resize.
  rewrite length_app, length_take, length_replicate. lia.
Qed.

Lemma empty_nil (v : list double) : empty v = true <-> v = [].
Proof. destruct v; simpl; split; congruence. Qed.

Lemma empty_vsize (v : list double) : empty v = false <-> vsize v <> 0.
Proof. destruct v; unfold vsize; simpl; split; intros; try lia; congruence. Qed.

Lemma iflag_commit (o : lbfgs_out) : iflag_ (optimize_commit o) = iflag_out o.
Proof. reflexivity. Qed.

Lemma w_commit (o : lbfgs_out) : w_ (optimize_commit o) = w_out o.
Proof. reflexivity. Qed.

Lemma diag_commit (o : lbfgs_out) : diag_ (optimize_commit o) = diag_out o.
Proof. reflexivity. Qed.

Lemma size_t_wrap_range (z : Z) : 0 <= size_t_wrap z < size_t_max.
Proof. apply Z.mod_pos_bound. reflexivity. Qed.

(** No buffer of doubles that fits the address space makes the size of
    the working array wrap to zero. *)
Lemma work_size_nonzero (n : Z) :
  addressable n -> size_t_wrap (n * (2 * msize + 1) + 2 * msize) <> 0.
Proof.
  unfold addressable, size_t_wrap, size_t_max, msize.
  intros [H0 H8] Hz.
  apply Z.mod_divide in Hz; [|lia].
  destruct Hz as [k Hk].
  change (2 ^ 64) with 18446744073709551616 in *.
  assert (0 < k <= 25) by lia.
  lia.
Qed.

Lemma optimize_prepare_none (size : Z) (s : t) :
  optimize_prepare size s = None <->
  empty (w_ s) = false /\ vsize (diag_ s) <> size.
Proof.
  unfold optimize_prepare.
  destruct (empty (w_ s)); [split; [discriminate | intros [? _]; discriminate]|].
  destruct (Z.eqb_spec (vsize (diag_ s)) size); simpl; split;
    try discriminate; try tauto; intros [_ ?]; contradiction.
Qed.

Lemma optimize_prepare_first (size : Z) (s : t) :
  w_ s = [] ->
  optimize_prepare size s =
    Some (set_diag (resize size (diag_ s))
           (set_w (resize (size_t_wrap (size * (2 * msize + 1) + 2 * msize)) [])
             (set_iflag 0 s))).
Proof. intros Hw. unfold optimize_prepare. rewrite Hw. reflexivity. Qed.

Lemma optimize_three_statuses (size : Z) (x : list double) (f : double)
    (g : list double) (orthant : bool) (C : double) (s : t) :
  let r := status (optimize size x f g orthant C s) in
  r = CONTINUE \/ r = CONVERGED \/ r = FAILED.
Proof.
  unfold optimize, status, CONTINUE, CONVERGED, FAILED.
  destruct (optimize_prepare size s) as [s1|]; simpl; [|auto].
  destruct (_ <? 0); simpl; [auto|].
  destruct (_ =? 0); simpl; auto.
Qed.

(** The trace of [drive]: the loop goes on after a status exactly when
    the status is [1]. *)
Lemma drive_continues eval orthant C fuel size x s rs x' s' :
  drive eval orthant C fuel size x s = (rs, x', s') ->
  forall i r, rs !! i = Some r -> (S i < length rs)%nat -> r = CONTINUE.
Proof.
  revert x s rs x' s'.
  induction fuel as [|fuel IH]; intros x s rs x' s' Hd i r Hi Hlt; simpl in Hd.
  - inversion Hd; subst. simpl in Hlt. lia.
  - destruct (eval x) as [f g].
    pose proof (optimize_three_statuses size x f g orthant C s) as Hst.
    destruct (optimize size x f g orthant C s) as [[r0 x0] s0].
    unfold status, CONTINUE, CONVERGED, FAILED in Hst. simpl in Hst.
    destruct (Z.eqb_spec r0 0) as [->|Hne0].
    { inversion Hd; subst. simpl in Hlt. lia. }
    destruct (Z.ltb_spec r0 0) as [Hneg|Hpos].
    { inversion Hd; subst. simpl in Hlt. lia. }
    destruct (drive eval orthant C fuel size x0 s0) as [[rs1 x1] s1] eqn:Hrec.
    inversion Hd; subst.
    destruct i as [|i]; simpl in Hi.
    + inversion Hi; subst. unfold CONTINUE. lia.
    + simpl in Hlt. eapply IH; eauto. lia.
Qed.

(** *** The status of a call *)

(** C1. [optimize] returns one of the three statuses 1 (CONTINUE),
    0 (CONVERGED) and -1 (FAILED).  It returns 0 exactly when the call
    reaches [lbfgs_optimize] and that routine leaves [iflag_] at 0; it
    returns -1 when the size check fails or [iflag_] is left negative;
    it returns 1 in the remaining case, a positive [iflag_], which asks the
    caller for the objective and gradient at the updated [x]. *)
Theorem optimize_status (size : Z) (x : list double) (f : double)
    (g : list double) (orthant : bool) (C : double) (s : t) :
  let r := status (optimize size x f g orthant C s) in
  let fl := optimize_iflag size x f g orthant C s in
  (r = CONTINUE \/ r = CONVERGED \/ r = FAILED) /\
  (r = CONVERGED <-> fl = Some 0) /\
  (r = FAILED <->
     (empty (w_ s) = false /\ vsize (diag_ s) <> size) \/
     (exists i, fl = Some i /\ i < 0)) /\
  (r = CONTINUE <-> exists i, fl = Some i /\ 0 < i).
Proof.
  cbv zeta. unfold optimize, optimize_iflag, status, CONTINUE, CONVERGED, FAILED.
  pose proof (optimize_prepare_none size s) as Hnone.
  destruct (optimize_prepare size s) as [s1|].
  - assert (Hok : ~ (empty (w_ s) = false /\ vsize (diag_ s) <> size)).
    { intros H. apply Hnone in H. discriminate. }
    cbv zeta. rewrite !iflag_commit.
    set (i := iflag_out (optimize_call size x f g orthant C s1)).
    destruct (Z.ltb_spec i 0) as [Hneg|Hnn]; simpl.
    + repeat split; try (intros; lia); auto.
      * intros [=]. lia.
      * intros _. right. exists i. auto.
      * intros (j & [=] & Hj). lia.
    + destruct (Z.eqb_spec i 0) as [Hz|Hnz]; simpl.
      * repeat split; try (intros; lia); auto.
        -- intros _. f_equal. exact Hz.
        -- intros [H|(j & [=] & Hj)]; [tauto | lia].
        -- intros (j & [=] & Hj). lia.
      * repeat split; try (intros; lia); auto.
        -- intros [=]. contradiction.
        -- intros [H|(j & [=] & Hj)]; [tauto | lia].
        -- intros _. exists i. split; [reflexivity | lia].
  - simpl. repeat split; try (intros; lia); try discriminate; auto.
    + intros _. left. apply Hnone. reflexivity.
    + intros (j & [=] & _).
Qed.

(** *** A change of the parameter count *)

(** [lbfgs_optimize] receives [diag] and [w] as raw pointers into the two
    vectors: it can overwrite their elements, not change their sizes. *)
Hypothesis lbfgs_in_place :
  forall size m x f g diag w orthant C iflag s,
    let o := lbfgs_optimize size m x f g diag w orthant C iflag s in
    length (diag_out o) = length diag /\ length (w_out o) = length w.

Lemma optimize_keeps_allocation (n : Z) (x : list double) (f : double)
    (g : list double) (orthant : bool) (C : double) (s : t) r x' s' :
  addressable n ->
  optimize n x f g orthant C s = (r, x', s') ->
  r <> 0 ->
  (w_ s = [] \/ vsize (diag_ s) = n) ->
  empty (w_ s') = false /\ vsize (diag_ s') = n.
Proof.
  intros Hn Hopt Hr Hs. unfold optimize in Hopt.
  destruct (optimize_prepare n s) as [s1|] eqn:Hprep.
  - assert (Hs1 : empty (w_ s1) = false /\ vsize (diag_ s1) = n).
    { unfold optimize_prepare in Hprep.
      destruct (empty (w_ s)) eqn:He.
      - inversion Hprep; subst; simpl. split.
        + apply empty_vsize. rewrite length_resize by apply size_t_wrap_range.
          apply work_size_nonzero. exact Hn.
        + apply length_resize. apply Hn.
      - destruct (Z.eqb_spec (vsize (diag_ s)) n); simpl in Hprep; [|discriminate].
        inversion Hprep; subst. auto. }
    cbv zeta in Hopt.
    set (o := optimize_call n x f g orthant C s1) in *.
    assert (Ho : empty (w_ (optimize_commit o)) = false /\
                 vsize (diag_ (optimize_commit o)) = n).
    { rewrite w_commit, diag_commit. subst o. unfold optimize_call.
      destruct (lbfgs_in_place (static_cast_int n) msize x f g (diag_ s1)
                  (w_ s1) orthant C (iflag_ s1) s1) as [Hd Hw].
      destruct Hs1 as [He Hd1]. split.
      - apply empty_vsize. apply empty_vsize in He. unfold vsize in *.
        rewrite Hw. exact He.
      - unfold vsize in *. rewrite Hd. exact Hd1. }
    destruct (iflag_ (optimize_commit o) <? 0).
    + inversion Hopt; subst. exact Ho.
    + destruct (iflag_ (optimize_commit o) =? 0).
      * inversion Hopt; subst. contradiction.
      * inversion Hopt; subst. exact Ho.
  - inversion Hopt; subst.
    apply optimize_prepare_none in Hprep. destruct Hprep as [He Hd].
    destruct Hs as [Hs|Hs]; [|contradiction].
    rewrite Hs in He. discriminate.
Qed.

Lemma allocated_for_arrays (n : Z) (s : t) :
  addressable n -> allocated_for n s ->
  empty (w_ s) = false /\ vsize (diag_ s) = n.
Proof.
  intros Hn Ha. induction Ha as [x f g o C r x' s' Hopt Hr
                                |s x f g o C r x' s' Ha IH Hopt Hr].
  - eapply optimize_keeps_allocation; eauto.
  - eapply optimize_keeps_allocation; eauto. right. apply IH.
Qed.

(** *** Allocation on the first call *)

Lemma optimize_finish_call (size : Z) (x : list double) (f : double)
    (g : list double) (orthant : bool) (C : double) (s s1 : t) :
  optimize_prepare size s = Some s1 ->
  optimize size x f g orthant C s =
    optimize_finish (optimize_call size x f g orthant C s1).
Proof. intros Hp. unfold optimize, optimize_finish. rewrite Hp. reflexivity. Qed.

Lemma optimize_finish_object (o : lbfgs_out) :
  status (optimize_finish o) <> CONVERGED ->
  object (optimize_finish o) = optimize_commit o.
Proof.
  unfold optimize_finish, status, object, CONVERGED. cbv zeta.
  destruct (iflag_ (optimize_commit o) <? 0); [reflexivity|].
  destruct (iflag_ (optimize_commit o) =? 0); simpl; [congruence | reflexivity].
Qed.

(** C4. The history size is 100: a call of [optimize] that finds [w_]
    empty sizes the working array for 100 curvature pairs, [w_] of length
    [size * (2 * 100 + 1) + 2 * 100] (in [size_t] arithmetic, which is the
    plain value whenever that fits 64 bits) and [diag_] of length [size];
    the call is the run of [lbfgs_optimize] on exactly these buffers with
    [msize = 100], followed by the tests of the flag; and unless the run
    ends at once (status 0 clears the object) the object holds arrays of
    these lengths after the call. *)
Theorem optimize_first_call_allocates (size : Z) (x : list double)
    (f : double) (g : list double) (orthant : bool) (C : double) (s : t) :
  w_ s = [] ->
  0 <= size ->
  exists s1,
    optimize_prepare size s = Some s1 /\
    msize = 100 /\
    vsize (w_ s1) = size_t_wrap (size * (2 * 100 + 1) + 2 * 100) /\
    (size * (2 * 100 + 1) + 2 * 100 < size_t_max ->
     vsize (w_ s1) = size * (2 * 100 + 1) + 2 * 100) /\
    vsize (diag_ s1) = size /\
    optimize_call size x f g orthant C s1 =
      lbfgs_optimize (static_cast_int size) 100 x f g
                     (diag_ s1) (w_ s1) orthant C 0 s1 /\
    optimize size x f g orthant C s =
      optimize_finish
        (lbfgs_optimize (static_cast_int size) 100 x f g
                        (diag_ s1) (w_ s1) orthant C 0 s1) /\
    (status (optimize size x f g orthant C s) <> CONVERGED ->
     vsize (w_ (object (optimize size x f g orthant C s)))
       = size_t_wrap (size * (2 * 100 + 1) + 2 * 100) /\
     vsize (diag_ (object (optimize size x f g orthant C s))) = size).
Proof.
  intros Hw Hsize.
  pose proof (optimize_prepare_first size s Hw) as Hprep.
  set (s1 := set_diag (resize size (diag_ s))
               (set_w (resize (size_t_wrap (size * (2 * msize + 1) + 2 * msize)) [])
                  (set_iflag 0 s))) in *.
  assert (Hlw : vsize (w_ s1) = size_t_wrap (size * (2 * 100 + 1) + 2 * 100)).
  { subst s1. simpl. apply length_resize. apply size_t_wrap_range. }
  assert (Hld : vsize (diag_ s1) = size).
  { subst s1. simpl. apply length_resize. exact Hsize. }
  exists s1.
  split; [exact Hprep|]. split; [reflexivity|]. split; [exact Hlw|].
  split.
  { intros Hfit. rewrite Hlw. unfold size_t_wrap. apply Z.mod_small. lia. }
  split; [exact Hld|]. split; [reflexivity|].
  pose proof (optimize_finish_call size x f g orthant C s s1 Hprep) as Hcall.
  split; [exact Hcall|].
  intros Hst. rewrite Hcall in *.
  rewrite (optimize_finish_object _ Hst), w_commit, diag_commit.
  unfold optimize_call.
  destruct (lbfgs_in_place (static_cast_int size) msize x f g (diag_ s1)
              (w_ s1) orthant C (iflag_ s1) s1) as [Hd Hwl].
  unfold vsize in *. rewrite Hd, Hwl. auto.
Qed.

(** C9. Once a first call with parameter count [n] has allocated the
    arrays, and as long as no call has terminated the run, a call with
    another count [n'] returns -1 at once: the parameter vector [x] and
    the whole optimizer object are what they were before the call. *)
Theorem optimize_size_mismatch (n n' : Z) (s : t) (x : list double)
    (f : double) (g : list double) (orthant : bool) (C : double) :
  addressable n ->
  allocated_for n s ->
  n' <> n ->
  optimize n' x f g orthant C s = (FAILED, x, s).
Proof.
  intros Hn Ha Hne.
  destruct (allocated_for_arrays n s Hn Ha) as [He Hd].
  unfold optimize.
  assert (Hprep : optimize_prepare n' s = None).
  { apply optimize_prepare_none. split; [exact He|]. rewrite Hd. auto. }
  rewrite Hprep. reflexivity.
Qed.

(** *** What the routine is handed *)

(** The length of the working array for [n] parameters, as [optimize]
  computes it. *)
Definition work_size (n : Z) : Z :=
  size_t_wrap (n * (2 * msize + 1) + 2 * msize).

(** X4. On a call that finds [w_] empty, [optimize] sizes [diag_] with
  the [size_t] count itself and tells the routine
  [static_cast<int>(size)]: the count the routine is told lies in the
  [int] range, differs from the length of [diag_] by a multiple of 2^32,
  and is that length exactly for counts below 2^31. *)
Theorem optimize_size_argument (size : Z) (x : list double) (f : double)
    (g : list double) (orthant : bool) (C : double) (s : t) :
  0 <= size < size_t_max ->
  w_ s = [] ->
  exists s1,
    optimize_prepare size s = Some s1 /\
    vsize (diag_ s1) = size /\
    vsize (w_ s1) = work_size size /\
    optimize size x f g orthant C s =
      optimize_finish
        (lbfgs_optimize (static_cast_int size) msize x f g
                        (diag_ s1) (w_ s1) orthant C 0 s1) /\
    - 2 ^ 31 <= static_cast_int size < 2 ^ 31 /\
    (static_cast_int size = vsize (diag_ s1) <-> size < 2 ^ 31) /\
    exists k, 0 <= k /\ static_cast_int size = vsize (diag_ s1) - k * 2 ^ 32.
Proof.
  intros [H0 Hmax] Hw.
  pose proof (optimize_prepare_first size s Hw) as Hprep.
  set (s1 := set_diag (resize size (diag_ s))
               (set_w (resize (size_t_wrap (size * (2 * msize + 1) + 2 * msize)) [])
                  (set_iflag 0 s))) in *.
  assert (Hld : vsize (diag_ s1) = size).
  { subst s1. simpl. apply length_resize. exact H0. }
  assert (Hlw : vsize (w_ s1) = work_size size).
  { subst s1. simpl. apply length_resize. apply size_t_wrap_range. }
  exists s1. split; [exact Hprep|]. split; [exact Hld|]. split; [exact Hlw|].
  split; [apply (optimize_finish_call size x f g orthant C s s1 Hprep)|].
  rewrite Hld. unfold static_cast_int.
  pose proof (Z.mod_pos_bound (size + 2 ^ 31) (2 ^ 32) eq_refl) as Hb.
  pose proof (Z.div_mod (size + 2 ^ 31) (2 ^ 32)) as Hdm.
  assert (Hq : 0 <= (size + 2 ^ 31) / 2 ^ 32) by (apply Z.div_pos; lia).
  split; [lia|]. split.
  - split; [lia|]. intros Hlt. rewrite Z.mod_small by lia. lia.
  - exists ((size + 2 ^ 31) / 2 ^ 32). split; [exact Hq|]. lia.
Qed.

(** X5. A call on a newly constructed object never fails the size check: it
  sets [iflag_] to 0 and hands the routine zero-filled arrays; the call
  fails only when the routine leaves a negative flag. *)
Theorem optimize_on_new_object (size : Z) (x : list double) (f : double)
    (g : list double) (orthant : bool) (C : double) :
  let s1 := mk 0 0 0 0 0 0 0 0 0 0 0 0 dzero dzero
               (replicate (Z.to_nat size) dzero)
               (replicate (Z.to_nat (work_size size)) dzero) None in
  optimize_prepare size LBFGS_new = Some s1 /\
  (status (optimize size x f g orthant C LBFGS_new) = FAILED <->
   iflag_out (optimize_call size x f g orthant C s1) < 0).
Proof.
  cbv zeta.
  assert (Hprep : optimize_prepare size LBFGS_new =
                  Some (mk 0 0 0 0 0 0 0 0 0 0 0 0 dzero dzero
                          (replicate (Z.to_nat size) dzero)
                          (replicate (Z.to_nat (work_size size)) dzero) None)).
  { unfold optimize_prepare, LBFGS_new, work_size. simpl.
    unfold set_diag, set_w, set_iflag, resize. simpl.
    rewrite !take_nil, !Nat.sub_0_r. reflexivity. }
  split; [exact Hprep|].
  unfold optimize, status, FAILED. rewrite Hprep. cbv zeta.
  rewrite iflag_commit.
  destruct (Z.ltb_spec (iflag_out (optimize_call size x f g orthant C
             (mk 0 0 0 0 0 0 0 0 0 0 0 0 dzero dzero
                 (replicate (Z.to_nat size) dzero)
                 (replicate (Z.to_nat (work_size size)) dzero) None))) 0)
    as [Hneg|Hpos]; simpl.
  - tauto.
  - destruct (_ =? 0); simpl; split; intros; try discriminate; lia.
Qed.

(** X7. The trace of the driver loop of the usage example: it calls
  [optimize] at most [max_iterations] times, every status is 1, 0 or -1,
  every status but the last is 1, and when the loop ends before the
  iterations are used up the last status is 0 or -1. *)
Theorem drive_trace (eval : list double -> double * list double)
    (orthant : bool) (C : double) (fuel : nat) (size : Z)
    (x : list double) (s : t) :
  let rs := (drive eval orthant C fuel size x s).1.1 in
  (length rs <= fuel)%nat /\
  Forall (fun r => r = CONTINUE \/ r = CONVERGED \/ r = FAILED) rs /\
  (forall i r, rs !! i = Some r -> (S i < length rs)%nat -> r = CONTINUE) /\
  ((length rs < fuel)%nat ->
   exists r, last rs = Some r /\ (r = CONVERGED \/ r = FAILED)).
Proof.
  cbv zeta. revert x s.
  induction fuel as [|fuel IH]; intros x s.
  - simpl. split; [lia|]. split; [constructor|]. split.
    + intros i r Hi. destruct i; discriminate.
    + lia.
  - simpl. destruct (eval x) as [f g].
    pose proof (optimize_three_statuses size x f g orthant C s) as Hst.
    destruct (optimize size x f g orthant C s) as [[r0 x0] s0].
    unfold status, CONTINUE, CONVERGED, FAILED in Hst. simpl in Hst.
    unfold CONTINUE, CONVERGED, FAILED in *.
    destruct (Z.eqb_spec r0 0) as [->|Hne0].
    { simpl. split; [lia|]. split; [constructor; [auto | constructor]|].
      split.
      - intros i r Hi Hlt. lia.
      - intros _. exists 0. auto. }
    destruct (Z.ltb_spec r0 0) as [Hneg|Hpos].
    { simpl. split; [lia|]. split; [constructor; [auto | constructor]|].
      split.
      - intros i r Hi Hlt. lia.
      - intros _. exists r0. split; [reflexivity | lia]. }
    specialize (IH x0 s0).
    destruct (drive eval orthant C fuel size x0 s0) as [[rs1 x1] s1].
    simpl in *. destruct IH as (Hlen & Hall & Hcont & Hend).
    split; [|split; [|split]].
    + lia.
    + constructor; [auto | exact Hall].
    + intros i r Hi Hlt. destruct i as [|i]; simpl in Hi.
      * inversion Hi; subst. lia.
      * apply (Hcont i r Hi). lia.
    + intros Hlt. destruct Hend as (r & Hr & Hcase); [lia|].
      exists r. split; [|exact Hcase].
      destruct rs1 as [|r1 rs1]; [discriminate|]. exact Hr.
Qed.




End Optimizer.

(** *** A run on a concrete routine *)

(** A stand-in for the routine of LBFGS.cpp, used to run [optimize] on
  concrete inputs: it leaves the buffers as they are and asks for another
  evaluation unless the objective is exactly zero. *)
Definition demo_lbfgs (size m : Z) (x : list double) (f : double)
    (g diag w : list double) (orthant : bool) (C : double) (iflag : Z)
    (s : t unit) : lbfgs_out unit :=
  mk_out unit x diag w (if PrimFloat.eqb f 0%float then 0 else 1) s.

Lemma demo_lbfgs_in_place :
  forall size m x f g diag w orthant C iflag s,
    let o := demo_lbfgs size m x f g diag w orthant C iflag s in
    length (diag_out unit o) = length diag /\ length (w_out unit o) = length w.
Proof. intros. split; reflexivity. Qed.

Definition demo_x : list double := [1%float; 2%float].

Definition demo_first : Z * list double * t unit :=
  optimize unit demo_lbfgs 2 demo_x 5%float [0%float; 0%float] false dzero
           (LBFGS_new unit).

Lemma optimize_first_call_allocates_witness :
  w_ unit (LBFGS_new unit) = [] /\ 0 <= 2 /\
  exists s1,
    optimize_prepare unit 2 (LBFGS_new unit) = Some s1 /\
    msize = 100 /\
    vsize (w_ unit s1) = size_t_wrap (2 * (2 * 100 + 1) + 2 * 100) /\
    (2 * (2 * 100 + 1) + 2 * 100 < size_t_max ->
     vsize (w_ unit s1) = 2 * (2 * 100 + 1) + 2 * 100) /\
    vsize (diag_ unit s1) = 2 /\
    optimize_call unit demo_lbfgs 2 demo_x 5%float [] false dzero s1 =
      demo_lbfgs (static_cast_int 2) 100 demo_x 5%float []
                 (diag_ unit s1) (w_ unit s1) false dzero 0 s1 /\
    optimize unit demo_lbfgs 2 demo_x 5%float [] false dzero (LBFGS_new unit) =
      optimize_finish unit
        (demo_lbfgs (static_cast_int 2) 100 demo_x 5%float []
                    (diag_ unit s1) (w_ unit s1) false dzero 0 s1) /\
    (status unit
       (optimize unit demo_lbfgs 2 demo_x 5%float [] false dzero
                 (LBFGS_new unit)) <> CONVERGED ->
     vsize (w_ unit (object unit
              (optimize unit demo_lbfgs 2 demo_x 5%float [] false dzero
                        (LBFGS_new unit))))
       = size_t_wrap (2 * (2 * 100 + 1) + 2 * 100) /\
     vsize (diag_ unit (object unit
              (optimize unit demo_lbfgs 2 demo_x 5%float [] false dzero
                        (LBFGS_new unit)))) = 2).
Proof.
  split; [reflexivity|]. split; [lia|].
  apply (optimize_first_call_allocates unit demo_lbfgs demo_lbfgs_in_place
           2 demo_x 5%float [] false dzero (LBFGS_new unit));
    [reflexivity | lia].
Defined.

Lemma optimize_size_mismatch_witness :
  addressable 2 /\ allocated_for unit demo_lbfgs 2 (object unit demo_first) /\
  3 <> 2 /\
  optimize unit demo_lbfgs 3 [7%float; 8%float; 9%float] 1%float [] true dzero
           (object unit demo_first)
  = (FAILED, [7%float; 8%float; 9%float], object unit demo_first).
Proof.
  assert (Ha : addressable 2) by (unfold addressable, size_t_max; lia).
  assert (Hf : allocated_for unit demo_lbfgs 2 (object unit demo_first)).
  { eapply (allocated_first unit demo_lbfgs 2 demo_x 5%float
              [0%float; 0%float] false dzero 1 demo_x).
    - vm_compute. reflexivity.
    - lia. }
  split; [exact Ha|]. split; [exact Hf|]. split; [lia|].
  apply (optimize_size_mismatch unit demo_lbfgs demo_lbfgs_in_place 2 3);
    [exact Ha | exact Hf | lia].
Defined.


Lemma optimize_size_argument_witness :
  0 <= 3000000000 < size_t_max /\
  w_ unit (LBFGS_new unit) = [] /\
  exists s1,
    optimize_prepare unit 3000000000 (LBFGS_new unit) = Some s1 /\
    vsize (diag_ unit s1) = 3000000000 /\
    vsize (w_ unit s1) = work_size 3000000000 /\
    optimize unit demo_lbfgs 3000000000 demo_x 5%float [] false dzero
             (LBFGS_new unit) =
      optimize_finish unit
        (demo_lbfgs (static_cast_int 3000000000) msize demo_x 5%float []
                    (diag_ unit s1) (w_ unit s1) false dzero 0 s1) /\
    - 2 ^ 31 <= static_cast_int 3000000000 < 2 ^ 31 /\
    (static_cast_int 3000000000 = vsize (diag_ unit s1)
     <-> 3000000000 < 2 ^ 31) /\
    exists k, 0 <= k /\
      static_cast_int 3000000000 = vsize (diag_ unit s1) - k * 2 ^ 32.
Proof.
  assert (H : 0 <= 3000000000 < size_t_max) by (unfold size_t_max; lia).
  split; [exact H|]. split; [reflexivity|].
  apply (optimize_size_argument unit demo_lbfgs 3000000000 demo_x 5%float []
           false dzero (LBFGS_new unit) H eq_refl).
Defined.


(** *** The sign function *)

(** [inline double sigma(double x) { if (x > 0) return 1.0;
  else if (x < 0) return -1.0; return 0.0; }] *)
Definition sigma (x : double) : double :=
  if PrimFloat.ltb 0 x then 1%float
  else if PrimFloat.ltb x 0 then (-1)%float
  else 0%float.

Lemma ltb_zero_l (x : double) :
  PrimFloat.ltb 0 x =
  match Prim2SF x with
  | S754_infinity false | S754_finite false _ _ => true
  | _ => false
  end.
Proof.
  rewrite ltb_spec. change (Prim2SF 0) with (S754_zero false).
  destruct (Prim2SF x) as [[|]|[|]| |[|] m e]; reflexivity.
Qed.

Lemma ltb_zero_r (x : double) :
  PrimFloat.ltb x 0 =
  match Prim2SF x with
  | S754_infinity true | S754_finite true _ _ => true
  | _ => false
  end.
Proof.
  rewrite ltb_spec. change (Prim2SF 0) with (S754_zero false).
  destruct (Prim2SF x) as [[|]|[|]| |[|] m e]; reflexivity.
Qed.

Lemma is_nan_spec (x : double) :
  is_nan x = match Prim2SF x with S754_nan => true | _ => false end.
Proof.
  unfold is_nan. rewrite FloatAxioms.eqb_spec.
  destruct (Prim2SF x) as [[|]|[|]| |[|] m e]; try reflexivity.
  all: unfold SFeqb, SFcompare.
  all: rewrite Z.compare_refl, Pos.compare_refl; reflexivity.
Qed.

Lemma is_zero_spec (x : double) :
  is_zero x = match Prim2SF x with S754_zero _ => true | _ => false end.
Proof.
  unfold is_zero. rewrite FloatAxioms.eqb_spec.
  change (Prim2SF zero) with (S754_zero false).
  destruct (Prim2SF x) as [[|]|[|]| |[|] m e]; reflexivity.
Qed.

Lemma double_neq (a b : double) :
  PrimFloat.Leibniz.eqb a b = false -> a <> b.
Proof.
  intros H ->.
  assert (PrimFloat.Leibniz.eqb b b = true)
    by (apply Leibniz.eqb_spec; reflexivity).
  congruence.
Qed.

Lemma sigma_range (x : double) :
  sigma x = 1%float \/ sigma x = (-1)%float \/ sigma x = 0%float.
Proof.
  unfold sigma. destruct (PrimFloat.ltb 0 x); [auto|].
  destruct (PrimFloat.ltb x 0); auto.
Qed.

(** X1. [sigma] returns 1.0, -1.0 or 0.0 on every double, so never a NaN, an
  infinity or the negative zero, and applying it twice changes nothing. *)
Theorem sigma_idempotent (x : double) :
  (sigma x = 1%float \/ sigma x = (-1)%float \/ sigma x = 0%float) /\
  sigma (sigma x) = sigma x.
Proof.
  split; [apply sigma_range|].
  destruct (sigma_range x) as [H|[H|H]]; rewrite H; reflexivity.
Qed.

(** X2. [sigma] is 0.0 exactly on the doubles that are neither above nor below
  zero: the two zeros and every NaN. *)
Theorem sigma_zero_iff (x : double) :
  sigma x = 0%float <-> is_nan x = true \/ is_zero x = true.
Proof.
  rewrite is_nan_spec, is_zero_spec. unfold sigma.
  rewrite ltb_zero_l, ltb_zero_r.
  destruct (Prim2SF x) as [[|]|[|]| |[|] m e]; split; intros H; auto;
    try (destruct H; discriminate);
    exfalso; revert H; apply double_neq; reflexivity.
Qed.

(** X3. [sigma] is odd: the sign of [-x] is the opposite of the sign of [x],
  except that the 0.0 of a zero or a NaN stays the positive zero. *)
Theorem sigma_opp (x : double) :
  sigma (- x) = if is_zero (sigma x) then 0%float else (- sigma x)%float.
Proof.
  unfold sigma. rewrite !ltb_zero_l, !ltb_zero_r, opp_spec.
  destruct (Prim2SF x) as [[|]|[|]| |[|] m e]; reflexivity.
Qed.

End LBFGS.

(** ** Data.h *)

Module Data.

(** [struct Event]: a label id, a feature value and the sparse feature
  vector of [(feature_id, value)] pairs. *)
Record Event : Type := mkEvent {
  label : Z;
  fval : double;
  obs : list (Z * double)
}.

(** [struct StringEvent]: the same with feature names. *)
Record StringEvent : Type := mkStringEvent {
  slabel : Z;
  sfval : double;
  sobs : list (string * double)
}.

(** [typedef std::vector<Event> Sequence;] and
  [typedef std::vector<StringEvent> StringSequence;] *)
Abbreviation Sequence := (list Event).
Abbreviation StringSequence := (list StringEvent).

(** An event with label [l], feature value 1.0 and no features. *)
Definition ev (l : Z) : Event := mkEvent l 1%float [].

(** What the template [Data<T>] asks of [T]: a member [size()]. *)
Class Sized (T : Type) : Type := size : T -> Z.

(** [std::vector<A>::size()] *)
#[export] Instance vector_Sized (A : Type) : Sized (list A) :=
  fun v => Z.of_nat (length v).

(** [class TriSequence { Event topic; Sequence seq;
  size_t size() { return seq.size(); } }] *)
Module TriSequence.
Record t : Type := mk { topic : Event; seq : Sequence }.
End TriSequence.

#[export] Instance TriSequence_Sized : Sized TriSequence.t :=
  fun s => size (TriSequence.seq s).

(** [class TriStringSequence { Event topic; StringSequence seq;
  size_t size() { return seq.size(); } }] *)
Module TriStringSequence.
Record t : Type := mk { topic : Event; seq : StringSequence }.
End TriStringSequence.

#[export] Instance TriStringSequence_Sized : Sized TriStringSequence.t :=
  fun s => size (TriStringSequence.seq s).

(** [template <typename T> class Data : public std::vector<T>] with the
  private counter [size_t n_element]. *)
Record Data (T : Type) : Type := mkData {
  elements : list T;
  n_element : Z
}.
Arguments mkData {T} _ _.
Arguments elements {T} _.
Arguments n_element {T} _.

Section Container.

Context {T : Type} `{Sized T}.

(** [Data<T> d;]  The class declares no constructor and [n_element] has no
  initialiser: default-initialisation builds the empty vector and leaves
  the counter with whatever the storage held, [junk]. *)
Definition Data_default (junk : Z) : Data T := mkData [] junk.

(** [Data<T>()], or an object of static storage: the counter is
  zero-initialised. *)
Definition Data_value_init : Data T := mkData [] 0.

(** [void append(T element) { this->push_back(element);
  n_element += element.size(); }] *)
Definition append (element : T) (d : Data T) : Data T :=
  mkData (elements d ++ [element])
         (size_t_wrap (n_element d + size element)).

(** [size_t size_element() { return n_element; }] *)
Definition size_element (d : Data T) : Z := n_element d.

(** [std::vector<T>::size()], inherited. *)
Definition Data_size (d : Data T) : Z := Z.of_nat (length (elements d)).

(** [append] of [s1], ..., [sn] in this order. *)
Definition appends (ss : list T) (d : Data T) : Data T :=
  foldl (fun acc s => append s acc) d ss.

(** The total event count of [ss]. *)
Definition total_size (ss : list T) : Z :=
  foldr (fun s acc => size s + acc) 0 ss.

Lemma appends_cons (s : T) (ss : list T) (d : Data T) :
  appends (s :: ss) d = appends ss (append s d).
Proof. reflexivity. Qed.

Lemma elements_appends (ss : list T) (d : Data T) :
  elements (appends ss d) = elements d ++ ss.
Proof.
  revert d. induction ss as [|s ss IH]; intros d.
  - simpl. rewrite app_nil_r. reflexivity.
  - rewrite appends_cons, IH. simpl. rewrite <- app_assoc. reflexivity.
Qed.

Lemma size_element_appends (ss : list T) (d : Data T) :
  size_element (appends ss d) = 
  match ss with
  | [] => n_element d
  | _ => size_t_wrap (n_element d + total_size ss)
  end.
Proof.
  revert d. induction ss as [|s ss IH]; intros d; [reflexivity|].
  rewrite appends_cons, IH.
  destruct ss as [|s' ss].
  - simpl. unfold size_t_wrap. f_equal. lia.
  - cbn [append n_element]. unfold size_t_wrap.
    change (total_size (s :: s' :: ss)) with (size s + total_size (s' :: ss)).
    rewrite Zplus_mod_idemp_l. f_equal. lia.
Qed.

Lemma Data_size_appends (ss : list T) (d : Data T) :
  Data_size (appends ss d) = Data_size d + Z.of_nat (length ss).
Proof.
  unfold Data_size. rewrite elements_appends, length_app. lia.
Qed.

(** On a zero-initialised container the two counters are the number of
  appended sequences and their total event count, as long as the total
  fits a [size_t]. *)
Lemma Data_counts_from_value_init (ss : list T) :
  Forall (fun s => 0 <= size s) ss ->
  total_size ss < size_t_max ->
  Data_size (appends ss Data_value_init) = Z.of_nat (length ss) /\
  size_element (appends ss Data_value_init) = total_size ss.
Proof.
  intros Hpos Hfit. split.
  - rewrite Data_size_appends. reflexivity.
  - rewrite size_element_appends. destruct ss as [|s ss]; [reflexivity|].
    cbn [Data_value_init n_element]. unfold size_t_wrap.
    apply Z.mod_small. split; [|lia].
    clear Hfit. induction Hpos as [|s0 ss0 Hs0 _ IH]; simpl; lia.
Qed.

End Container.

(** *** The counters of a container *)

(** C2. A default-initialised [Data<Sequence>] ([Data<Sequence> d;], the
  form of the header's own usage example) starts with an indeterminate
  [n_element]: after [append] of [s1], ..., [sn], [size()] is [n], and
  [size_element()] is the initial content of the counter plus the total
  event count.  With the counter starting at 7 and one sequence of two
  events appended, [size_element()] is 9, not 2. *)
Theorem Data_size_element_from_default :
  (forall (junk : Z) (ss : list Sequence),
     Data_size (appends ss (Data_default junk)) = Z.of_nat (length ss) /\
     size_element (appends ss (Data_default junk)) =
       match ss with
       | [] => junk
       | _ => size_t_wrap (junk + total_size ss)
       end) /\
  Data_size (append [ev 0; ev 1] (Data_default 7)) = 1 /\
  total_size [[ev 0; ev 1]] = 2 /\
  size_element (append [ev 0; ev 1] (Data_default 7)) = 9.
Proof.
  split; [|repeat split; reflexivity].
  intros junk ss. split.
  - rewrite Data_size_appends. reflexivity.
  - rewrite size_element_appends. reflexivity.
Qed.

(** C10. [size()] of a [TriSequence] and of a [TriStringSequence] is the
  length of [seq]; the topic event is not counted.  So [append] on a
  container of triangular examples advances [n_element] by the number of
  per-token events of the example, and a run of appends by their sum,
  whatever the topics are. *)
Theorem Tri_size_counts_tokens_only :
  (forall t : TriSequence.t,
     size t = Z.of_nat (length (TriSequence.seq t))) /\
  (forall t : TriStringSequence.t,
     size t = Z.of_nat (length (TriStringSequence.seq t))) /\
  (forall (t : TriSequence.t) (d : Data TriSequence.t),
     size_element (append t d) =
       size_t_wrap (size_element d + Z.of_nat (length (TriSequence.seq t)))) /\
  (forall (t : TriStringSequence.t) (d : Data TriStringSequence.t),
     size_element (append t d) =
       size_t_wrap (size_element d
                    + Z.of_nat (length (TriStringSequence.seq t)))) /\
  (forall (ts : list TriSequence.t) (d : Data TriSequence.t),
     size_element (appends ts d) =
       match ts with
       | [] => size_element d
       | _ => size_t_wrap
                (size_element d
                 + Z.of_nat (length (concat (map TriSequence.seq ts))))
       end) /\
  (forall (ts : list TriStringSequence.t) (d : Data TriStringSequence.t),
     size_element (appends ts d) =
       match ts with
       | [] => size_element d
       | _ => size_t_wrap
                (size_element d
                 + Z.of_nat (length (concat (map TriStringSequence.seq ts))))
       end).
Proof.
  assert (Htot1 : forall ts : list TriSequence.t,
            total_size ts = Z.of_nat (length (concat (map TriSequence.seq ts)))).
  { induction ts as [|t ts IH]; [reflexivity|].
    simpl. rewrite length_app, IH. unfold size at 1, TriSequence_Sized.
    unfold size, vector_Sized. lia. }
  assert (Htot2 : forall ts : list TriStringSequence.t,
            total_size ts
            = Z.of_nat (length (concat (map TriStringSequence.seq ts)))).
  { induction ts as [|t ts IH]; [reflexivity|].
    simpl. rewrite length_app, IH. unfold size at 1, TriStringSequence_Sized.
    unfold size, vector_Sized. lia. }
  repeat split; try reflexivity.
  - intros ts d. rewrite size_element_appends, Htot1. reflexivity.
  - intros ts d. rewrite size_element_appends, Htot2. reflexivity.
Qed.

(** *** The counter and the inherited operations *)

Section Inherited.

Context {T : Type} `{Sized T}.

(** [std::vector<T>::push_back] and [std::vector<T>::clear], which [Data]
  inherits publicly and does not override: they act on the elements and
  leave [n_element] alone.  [append] is [push_back] followed by the
  addition to the counter. *)
Definition push_back (element : T) (d : Data T) : Data T :=
  mkData (elements d ++ [element]) (n_element d).

Definition clear (d : Data T) : Data T := mkData [] (n_element d).

(** The operations that change a [Data<T>]. *)
Inductive dop : Type :=
| DAppend (element : T)
| DPushBack (element : T)
| DClear.

Definition dexec (o : dop) (d : Data T) : Data T :=
  match o with
  | DAppend e => append e d
  | DPushBack e => push_back e d
  | DClear => clear d
  end.

Definition drun (os : list dop) (d : Data T) : Data T :=
  foldl (fun acc o => dexec o acc) d os.

(** The events that went through [append]. *)
Definition appended_size (os : list dop) : Z :=
  foldr (fun o acc => match o with DAppend e => size e + acc | _ => acc end)
        0 os.

(** The elements held after the operations. *)
Definition held (os : list dop) (l : list T) : list T :=
  foldl (fun acc o =>
           match o with
           | DAppend e | DPushBack e => acc ++ [e]
           | DClear => []
           end) l os.

Lemma total_size_app (l1 l2 : list T) :
  total_size (l1 ++ l2) = total_size l1 + total_size l2.
Proof.
  induction l1 as [|s l1 IH]; simpl; [reflexivity|].
  unfold total_size in *. simpl. rewrite IH. lia.
Qed.

Lemma total_size_Permutation (l1 l2 : list T) :
  l1 ≡ₚ l2 -> total_size l1 = total_size l2.
Proof.
  unfold total_size.
  induction 1 as [|x l l' _ IH|x y l|l l' l'' _ IH1 _ IH2]; simpl; lia.
Qed.

Lemma drun_cons (o : dop) (os : list dop) (d : Data T) :
  drun (o :: os) d = drun os (dexec o d).
Proof. reflexivity. Qed.

(** X8. [size_element()] counts every event that ever went through [append]
  and nothing else: no operation of the container lowers or resets the
  counter, [clear()] included, and elements added by [push_back] are
  not counted.  The elements held and [size()] follow the vector. *)
Theorem size_element_counts_appends (os : list dop) (d : Data T) :
  size_t_wrap (size_element (drun os d)) =
    size_t_wrap (size_element d + appended_size os) /\
  elements (drun os d) = held os (elements d) /\
  Data_size (drun (os ++ [DClear]) d) = 0 /\
  size_element (drun (os ++ [DClear]) d) = size_element (drun os d).
Proof.
  split; [|split].
  - revert d. induction os as [|o os IH]; intros d.
    + simpl. f_equal. unfold size_element. lia.
    + rewrite drun_cons, IH. unfold size_element, size_t_wrap.
      destruct o as [e|e|]; simpl.
      * unfold size_t_wrap. rewrite Zplus_mod_idemp_l. f_equal. lia.
      * reflexivity.
      * reflexivity.
  - revert d. induction os as [|o os IH]; intros d; [reflexivity|].
    rewrite drun_cons, IH. destruct o; reflexivity.
  - unfold drun. rewrite foldl_app. simpl. split; reflexivity.
Qed.

(** X9. The counters after a batch of appends do not depend on the order in
  which the sequences were appended. *)
Theorem appends_order_irrelevant (ss ss' : list T) (d : Data T) :
  ss ≡ₚ ss' ->
  size_element (appends ss d) = size_element (appends ss' d) /\
  Data_size (appends ss d) = Data_size (appends ss' d).
Proof.
  intros Hp. split.
  - rewrite !size_element_appends, (total_size_Permutation _ _ Hp).
    destruct ss as [|s ss]; destruct ss' as [|s' ss']; try reflexivity.
    + apply Permutation_nil_l in Hp. discriminate.
    + apply Permutation_nil_r in Hp. discriminate.
  - rewrite !Data_size_appends. f_equal. f_equal.
    apply Permutation_length. exact Hp.
Qed.

End Inherited.

Lemma appends_order_irrelevant_witness :
  [[ev 0; ev 1]; [ev 2]] ≡ₚ [[ev 2]; [ev 0; ev 1]] /\
  size_element (appends [[ev 0; ev 1]; [ev 2]] (Data_default 7)) =
    size_element (appends [[ev 2]; [ev 0; ev 1]] (Data_default 7)) /\
  Data_size (appends [[ev 0; ev 1]; [ev 2]] (Data_default 7)) =
    Data_size (appends [[ev 2]; [ev 0; ev 1]] (Data_default 7)).
Proof.
  assert (Hp : [[ev 0; ev 1]; [ev 2]] ≡ₚ [[ev 2]; [ev 0; ev 1]])
    by apply perm_swap.
  split; [exact Hp|].
  apply (appends_order_irrelevant _ _ (Data_default 7) Hp).
Defined.

End Data.

(** ** Param.h

  Param.h declares [class Parameter]; the member functions are defined in
  Param.cpp.  The data members below are those of the header; the
  operations are modelled from the specification of the parameter store. *)

Module Param.

Local Open Scope nat_scope.

(** [struct ObsParam { size_t y, fid; double fval; }] *)
Record ObsParam : Type := mkObsParam {
  y : nat;
  fid : nat;
  fval : double
}.

(** [typedef std::map<std::string, size_t> Map;] and
  [typedef std::vector<std::string> Vec;] *)
Abbreviation Map := (gmap string nat).
Abbreviation Vec := (list string).

(** One row of [m_ParamIndex]: pairs [(fid, weight_index)]. *)
Abbreviation Row := (list (nat * nat)).

(** The data members of [class Parameter] that the dictionary, index and
  weight operations use (the members of the tied-potential mode and the
  transition index are left out). *)
Record t : Type := mk {
  n_weight : nat;
  m_Weight : list double;
  m_Gradient : list double;
  m_Count : list double;
  m_FeatureMap : Map;
  m_FeatureVec : Vec;
  m_StateMap : Map;
  m_StateVec : Vec;
  m_default_oid : nat;
  m_ParamIndex : list Row
}.

Definition set_features (m : Map) (v : Vec) (p : t) : t :=
  mk (n_weight p) (m_Weight p) (m_Gradient p) (m_Count p)
     m v (m_StateMap p) (m_StateVec p) (m_default_oid p)
     (m_ParamIndex p).

Definition set_states (m : Map) (v : Vec) (p : t) : t :=
  mk (n_weight p) (m_Weight p) (m_Gradient p) (m_Count p)
     (m_FeatureMap p) (m_FeatureVec p) m v (m_default_oid p)
     (m_ParamIndex p).

Definition set_index (n : nat) (ix : list Row) (p : t) : t :=
  mk n (m_Weight p) (m_Gradient p) (m_Count p)
     (m_FeatureMap p) (m_FeatureVec p) (m_StateMap p) (m_StateVec p)
     (m_default_oid p) ix.

Definition set_vectors (w g c : list double) (p : t) : t :=
  mk (n_weight p) w g c
     (m_FeatureMap p) (m_FeatureVec p) (m_StateMap p) (m_StateVec p)
     (m_default_oid p) (m_ParamIndex p).

(** *** Dictionaries *)

(** Modelled from the spec: the body shared by [addNewState] and
  [addNewObs] (Param.cpp).  "idempotent; assign the next id on first
  call": a known name keeps its id, a new name gets the next id, the
  current size of the dictionary. *)
Definition intern (key : string) (m : Map) (v : Vec) : nat * Map * Vec :=
  match m !! key with
  | Some id => (id, m, v)
  | None => (length v, <[key := length v]> m, v ++ [key])
  end.

(** Modelled from the spec: [size_t Parameter::addNewState(const
  std::string& key)] of Param.cpp, the specification's [intern_state]. *)
Definition addNewState (key : string) (p : t) : nat * t :=
  let '(id, m, v) := intern key (m_StateMap p) (m_StateVec p) in
  (id, set_states m v p).

(** Modelled from the spec: [size_t Parameter::addNewObs(const
  std::string& key)] of Param.cpp, the specification's [intern_feature]. *)
Definition addNewObs (key : string) (p : t) : nat * t :=
  let '(id, m, v) := intern key (m_FeatureMap p) (m_FeatureVec p) in
  (id, set_features m v p).

(** Modelled from the spec: [int Parameter::findState(const std::string&
  key)] and [findObs] of Param.cpp, "id or not found". *)
Definition findState (key : string) (p : t) : option nat :=
  m_StateMap p !! key.

Definition findObs (key : string) (p : t) : option nat :=
  m_FeatureMap p !! key.

(** Modelled from the spec: [size_t Parameter::getDefaultState()] of
  Param.cpp, the id of the reserved default state. *)
Definition getDefaultState (p : t) : nat := m_default_oid p.

(** [sizeStateVec()], [sizeFeatureVec()] and [size()] of the header. *)
Definition sizeStateVec (p : t) : nat := length (m_StateVec p).
Definition sizeFeatureVec (p : t) : nat := length (m_FeatureVec p).
Definition size (p : t) : nat := n_weight p.

(** *** Weight slots *)

(** The weight index recorded for feature [pid] in a row. *)
Fixpoint find_slot (pid : nat) (row : Row) : option nat :=
  match row with
  | [] => None
  | (f, w) :: row' => if decide (f = pid) then Some w else find_slot pid row'
  end.

(** The rows of the index, with empty rows up to state [oid]. *)
Definition rows_upto (oid : nat) (ix : list Row) : list Row :=
  ix ++ replicate (S oid - length ix) [].

(** Modelled from the spec: [size_t Parameter::updateParam(size_t oid,
  size_t pid, double fval)] of Param.cpp, the specification's [record]:
  "allocates an observation-weight slot on first sighting and returns its
  weight index.  Duplicate calls return the existing index".  The result
  is the [size_t] of the declaration at every stage of the store: the
  class has no member that tells a finalized store from one being built,
  and the declared result has no error value. *)
Definition updateParam (oid pid : nat) (fval : double) (p : t) : nat * t :=
  let rows := rows_upto oid (m_ParamIndex p) in
  match find_slot pid (default [] (rows !! oid)) with
  | Some w => (w, p)
  | None =>
      (n_weight p,
       set_index (S (n_weight p))
                 (alter (fun row => row ++ [(pid, n_weight p)]) oid rows)
                 p)
  end.

(** Modelled from the spec: [void Parameter::initialize()] of Param.cpp:
  the weight, gradient and count vectors as zero vectors of length W. *)
Definition initialize (p : t) : t :=
  set_vectors (replicate (n_weight p) dzero)
              (replicate (n_weight p) dzero)
              (replicate (n_weight p) dzero) p.

(** The order of the entries of a row: by feature id. *)
Definition by_fid (a b : nat * nat) : Prop := a.1 <= b.1.

#[export] Instance by_fid_dec (a b : nat * nat) : Decision (by_fid a b).
Proof. unfold by_fid. apply _. Defined.

#[export] Instance by_fid_total : Total by_fid.
Proof. intros a b. unfold by_fid. lia. Qed.

(** Modelled from the spec: the index that [finalize] builds, one row per
  state, each "sorted by fid". *)
Definition build_index (states : nat) (ix : list Row) : list Row :=
  merge_sort by_fid <$> (ix ++ replicate (states - length ix) []).

(** Modelled from the spec: [void Parameter::endUpdate()] of Param.cpp,
  the specification's [finalize]: "builds ParamIndex, allocates theta, g,
  c as zero-vectors of length W". *)
Definition endUpdate (p : t) : t :=
  initialize
    (set_index (n_weight p)
               (build_index (sizeStateVec p) (m_ParamIndex p)) p).

(** Modelled from the spec: [void Parameter::setWeight(double* theta)] of
  Param.cpp, through which the optimizer's iterate reaches the store: the
  weights are overwritten from [theta]. *)
Definition setWeight (theta : list double) (p : t) : t :=
  set_vectors (take (length (m_Weight p)) theta
               ++ drop (length theta) (m_Weight p))
              (m_Gradient p) (m_Count p) p.

Section Store.

(** The name under which the default state is reserved; the specification
  speaks of "a reserved default state" and does not spell its name. *)
Variable default_key : string.

(** Modelled from the spec: [Parameter::Parameter()] of Param.cpp.  "The
  dictionary always contains a reserved default state": the constructor
  reserves it, with the first id. *)
Definition Parameter_new : t :=
  mk 0 [] [] [] ∅ [] {[ default_key := 0 ]} [default_key] 0 [].

End Store.

(** Modelled from the spec: the label of a test-time token, as the readers
  ([MaxEnt::packEvent] with [test = true]) resolve it: "callers substitute
  the default state when a test-time label is missing".  The result is a
  plain state id: a miss is no error. *)
Definition test_label (key : string) (p : t) : nat :=
  match findState key p with
  | Some id => id
  | None => getDefaultState p
  end.

(** The operations that change a store during its life. *)
Inductive op : Type :=
| OpAddNewState (key : string)
| OpAddNewObs (key : string)
| OpUpdateParam (oid pid : nat) (fval : double)
| OpEndUpdate
| OpSetWeight (theta : list double).

(** One operation on the store. *)
Definition exec (o : op) (p : t) : t :=
  match o with
  | OpAddNewState key => (addNewState key p).2
  | OpAddNewObs key => (addNewObs key p).2
  | OpUpdateParam oid pid fval => (updateParam oid pid fval p).2
  | OpEndUpdate => endUpdate p
  | OpSetWeight theta => setWeight theta p
  end.

Definition run (os : list op) (p : t) : t :=
  foldl (fun q o => exec o q) p os.


(** A dictionary is a bijection between names and ids below its size. *)
Definition dict_ok (m : Map) (v : Vec) : Prop :=
  forall key id, m !! key = Some id <-> v !! id = Some key.

(** The invariant of a store: both dictionaries are bijections and the
  default state is one of the states. *)
Definition store_ok (p : t) : Prop :=
  dict_ok (m_StateMap p) (m_StateVec p) /\
  dict_ok (m_FeatureMap p) (m_FeatureVec p) /\
  m_default_oid p < length (m_StateVec p).

(** *** Facts about [intern] *)

Lemma intern_known (key : string) (m : Map) (v : Vec) (id : nat) :
  m !! key = Some id -> intern key m v = (id, m, v).
Proof. intros H. unfold intern. rewrite H. reflexivity. Qed.

Lemma intern_fresh (key : string) (m : Map) (v : Vec) :
  m !! key = None ->
  intern key m v = (length v, <[key := length v]> m, v ++ [key]).
Proof. intros H. unfold intern. rewrite H. reflexivity. Qed.

Lemma intern_lookup (key : string) (m : Map) (v : Vec) :
  (intern key m v).1.2 !! key = Some (intern key m v).1.1.
Proof.
  unfold intern. destruct (m !! key) as [id|] eqn:H; simpl.
  - exact H.
  - apply lookup_insert_eq.
Qed.

Lemma intern_again (key : string) (m : Map) (v : Vec) :
  intern key (intern key m v).1.2 (intern key m v).2 = intern key m v.
Proof.
  pose proof (intern_lookup key m v) as H.
  rewrite (intern_known _ _ _ _ H).
  destruct (intern key m v) as [[id m'] v']. reflexivity.
Qed.

Lemma intern_keeps_map (key : string) (m : Map) (v : Vec) k id :
  m !! k = Some id -> (intern key m v).1.2 !! k = Some id.
Proof.
  intros H. unfold intern. destruct (m !! key) as [id'|] eqn:Hk; simpl.
  - exact H.
  - rewrite lookup_insert_ne; [exact H|]. intros ->. congruence.
Qed.

Lemma intern_keeps_vec (key : string) (m : Map) (v : Vec) k id :
  v !! id = Some k -> (intern key m v).2 !! id = Some k.
Proof.
  intros H. unfold intern. destruct (m !! key); simpl.
  - exact H.
  - apply lookup_app_l_Some. exact H.
Qed.

Lemma intern_length (key : string) (m : Map) (v : Vec) :
  length (intern key m v).2 =
  match m !! key with Some _ => length v | None => S (length v) end.
Proof.
  unfold intern. destruct (m !! key); simpl; [reflexivity|].
  rewrite length_app. simpl. lia.
Qed.

Lemma intern_dict_ok (key : string) (m : Map) (v : Vec) :
  dict_ok m v -> dict_ok (intern key m v).1.2 (intern key m v).2.
Proof.
  intros Hok. unfold intern. destruct (m !! key) as [id0|] eqn:Hk; simpl.
  - exact Hok.
  - intros k id. rewrite lookup_snoc_Some.
    destruct (decide (key = k)) as [<-|Hne].
    + rewrite lookup_insert_eq. split.
      * intros [= <-]. right. auto.
      * intros [[_ Hv]|[-> _]]; [|reflexivity].
        apply Hok in Hv. congruence.
    + rewrite lookup_insert_ne by exact Hne. rewrite (Hok k id). split.
      * intros Hv. left. split; [|exact Hv].
        apply lookup_lt_Some in Hv. exact Hv.
      * intros [[_ Hv]|[_ Heq]]; [exact Hv | contradiction].
Qed.

(** In a bijective dictionary the next id is held by no name. *)
Lemma dict_ok_next_unused (m : Map) (v : Vec) :
  dict_ok m v -> forall k, m !! k <> Some (length v).
Proof.
  intros Hok k Hk. apply Hok in Hk. apply lookup_lt_Some in Hk. lia.
Qed.

(** *** Facts about the operations *)

Lemma updateParam_store (oid pid : nat) (fv : double) (p : t) :
  let q := (updateParam oid pid fv p).2 in
  m_StateMap q = m_StateMap p /\ m_StateVec q = m_StateVec p /\
  m_FeatureMap q = m_FeatureMap p /\ m_FeatureVec q = m_FeatureVec p /\
  m_default_oid q = m_default_oid p /\ m_Weight q = m_Weight p /\
  m_Gradient q = m_Gradient p /\ m_Count q = m_Count p.
Proof.
  unfold updateParam. cbv zeta.
  destruct (find_slot pid _); simpl; repeat split; reflexivity.
Qed.

Lemma exec_default (o : op) (p : t) :
  m_default_oid (exec o p) = m_default_oid p.
Proof.
  destruct o as [key|key|oid pid fv| |theta]; simpl; try reflexivity.
  - unfold addNewState. destruct (intern key _ _) as [[id m] v]. reflexivity.
  - unfold addNewObs. destruct (intern key _ _) as [[id m] v]. reflexivity.
  - apply (updateParam_store oid pid fv p).
Qed.

Lemma exec_keeps_state (o : op) (p : t) (k : string) (id : nat) :
  (findState k p = Some id -> findState k (exec o p) = Some id) /\
  (m_StateVec p !! id = Some k -> m_StateVec (exec o p) !! id = Some k).
Proof.
  unfold findState.
  destruct o as [key|key|oid pid fv| |theta]; simpl; try tauto.
  - unfold addNewState.
    pose proof (intern_keeps_map key (m_StateMap p) (m_StateVec p) k id).
    pose proof (intern_keeps_vec key (m_StateMap p) (m_StateVec p) k id).
    destruct (intern key _ _) as [[id' m] v]. simpl in *. tauto.
  - unfold addNewObs. destruct (intern key _ _) as [[id' m] v]. simpl. tauto.
  - destruct (updateParam_store oid pid fv p) as (-> & -> & _). tauto.
Qed.

Lemma exec_keeps_obs (o : op) (p : t) (k : string) (id : nat) :
  (findObs k p = Some id -> findObs k (exec o p) = Some id) /\
  (m_FeatureVec p !! id = Some k -> m_FeatureVec (exec o p) !! id = Some k).
Proof.
  unfold findObs.
  destruct o as [key|key|oid pid fv| |theta]; simpl; try tauto.
  - unfold addNewState. destruct (intern key _ _) as [[id' m] v]. simpl. tauto.
  - unfold addNewObs.
    pose proof (intern_keeps_map key (m_FeatureMap p) (m_FeatureVec p) k id).
    pose proof (intern_keeps_vec key (m_FeatureMap p) (m_FeatureVec p) k id).
    destruct (intern key _ _) as [[id' m] v]. simpl in *. tauto.
  - destruct (updateParam_store oid pid fv p) as (_ & _ & -> & -> & _). tauto.
Qed.

Lemma run_snoc (os : list op) (o : op) (p : t) :
  run (os ++ [o]) p = exec o (run os p).
Proof. unfold run. rewrite foldl_app. reflexivity. Qed.

Lemma run_keeps_state (os : list op) (p : t) (k : string) (id : nat) :
  (findState k p = Some id -> findState k (run os p) = Some id) /\
  (m_StateVec p !! id = Some k -> m_StateVec (run os p) !! id = Some k).
Proof.
  induction os as [|o os IH] using rev_ind; [simpl; tauto|].
  rewrite run_snoc.
  pose proof (exec_keeps_state o (run os p) k id). tauto.
Qed.

Lemma run_keeps_obs (os : list op) (p : t) (k : string) (id : nat) :
  (findObs k p = Some id -> findObs k (run os p) = Some id) /\
  (m_FeatureVec p !! id = Some k -> m_FeatureVec (run os p) !! id = Some k).
Proof.
  induction os as [|o os IH] using rev_ind; [simpl; tauto|].
  rewrite run_snoc.
  pose proof (exec_keeps_obs o (run os p) k id). tauto.
Qed.

Lemma run_default (os : list op) (p : t) :
  m_default_oid (run os p) = m_default_oid p.
Proof.
  induction os as [|o os IH] using rev_ind; [reflexivity|].
  rewrite run_snoc, exec_default. exact IH.
Qed.

Lemma exec_store_ok (o : op) (p : t) : store_ok p -> store_ok (exec o p).
Proof.
  intros (Hs & Hf & Hd). unfold store_ok.
  destruct o as [key|key|oid pid fv| |theta]; simpl; try tauto.
  - unfold addNewState.
    pose proof (intern_dict_ok key _ _ Hs) as Hs'.
    pose proof (intern_length key (m_StateMap p) (m_StateVec p)) as Hl.
    destruct (intern key _ _) as [[id m] v]. simpl in *.
    repeat split; try apply Hs'; try apply Hf.
    destruct (m_StateMap p !! key); lia.
  - unfold addNewObs.
    pose proof (intern_dict_ok key _ _ Hf) as Hf'.
    destruct (intern key _ _) as [[id m] v]. simpl in *.
    repeat split; try apply Hs; try apply Hf'. exact Hd.
  - destruct (updateParam_store oid pid fv p) as (-> & -> & -> & -> & -> & _).
    tauto.
Qed.

Lemma run_store_ok (os : list op) (p : t) : store_ok p -> store_ok (run os p).
Proof.
  intros Hp. induction os as [|o os IH] using rev_ind; [exact Hp|].
  rewrite run_snoc. apply exec_store_ok. exact IH.
Qed.

Lemma Parameter_new_ok (default_key : string) :
  store_ok (Parameter_new default_key).
Proof.
  unfold store_ok, Parameter_new, dict_ok. simpl. repeat split.
  - intros Hk. apply lookup_singleton_Some in Hk as [<- <-]. reflexivity.
  - intros Hv. destruct id as [|id]; simpl in Hv; [|discriminate].
    injection Hv as <-. apply lookup_singleton_eq.
  - rewrite lookup_empty. discriminate.
  - destruct id; discriminate.
  - lia.
Qed.



(** *** The index built by [endUpdate] *)



(** *** A small store *)

Definition demo_store : t :=
  run [OpAddNewState "NONE"; OpAddNewState "CITY_NAME-B";
       OpAddNewObs "word=denver"; OpAddNewObs "word=to";
       OpUpdateParam 2 1 1%float; OpUpdateParam 2 0 1%float;
       OpUpdateParam 1 1 1%float; OpUpdateParam 2 1 1%float]
      (Parameter_new "<default>").

Example demo_store_states :
  m_StateVec demo_store = ["<default>"; "NONE"; "CITY_NAME-B"] /\
  findState "CITY_NAME-B" demo_store = Some 2 /\
  findState "DATE-B" demo_store = None /\
  test_label "DATE-B" demo_store = 0 /\
  n_weight demo_store = 3 /\
  m_ParamIndex demo_store = [[]; [(1, 2)]; [(1, 0); (0, 1)]].
Proof. vm_compute. repeat split; reflexivity. Qed.

Example demo_store_finalized :
  m_ParamIndex (endUpdate demo_store) = [[]; [(1, 2)]; [(0, 1); (1, 0)]] /\
  m_Weight (endUpdate demo_store) = [dzero; dzero; dzero].
Proof. vm_compute. repeat split; reflexivity. Qed.

(** *** Interning *)

(** C3. [addNewState] and [addNewObs] are idempotent on every store built
  by the operations of the store: a name that is not in the dictionary
  gets the next id, which no name holds yet, and the dictionary grows by
  one; a second call with the same name returns the same id and leaves
  the store as it is; and whatever operations follow, the name keeps that
  id and the id keeps that name. *)
Theorem intern_idempotent (default_key : string) (os : list op)
    (key : string) :
  let p := run os (Parameter_new default_key) in
  (findState key p = None ->
     (addNewState key p).1 = sizeStateVec p /\
     (forall k, findState k p <> Some (sizeStateVec p)) /\
     sizeStateVec (addNewState key p).2 = S (sizeStateVec p)) /\
  addNewState key (addNewState key p).2 = addNewState key p /\
  (forall os',
     findState key (run os' (addNewState key p).2)
       = Some (addNewState key p).1 /\
     m_StateVec (run os' (addNewState key p).2) !! (addNewState key p).1
       = Some key) /\
  (findObs key p = None ->
     (addNewObs key p).1 = sizeFeatureVec p /\
     (forall k, findObs k p <> Some (sizeFeatureVec p)) /\
     sizeFeatureVec (addNewObs key p).2 = S (sizeFeatureVec p)) /\
  addNewObs key (addNewObs key p).2 = addNewObs key p /\
  (forall os',
     findObs key (run os' (addNewObs key p).2)
       = Some (addNewObs key p).1 /\
     m_FeatureVec (run os' (addNewObs key p).2) !! (addNewObs key p).1
       = Some key).
Proof.
  intros p.
  assert (Hok : store_ok p) by apply run_store_ok, Parameter_new_ok.
  destruct Hok as (Hs & Hf & _).
  pose proof (exec_store_ok (OpAddNewState key) p) as Hs1.
  pose proof (exec_store_ok (OpAddNewObs key) p) as Hf1.
  assert (Hok : store_ok p) by apply run_store_ok, Parameter_new_ok.
  specialize (Hs1 Hok). specialize (Hf1 Hok). simpl in Hs1, Hf1.
  destruct Hs1 as (Hs1 & _ & _). destruct Hf1 as (_ & Hf1 & _).
  unfold findState, findObs, sizeStateVec, sizeFeatureVec in *.
  repeat match goal with |- _ /\ _ => split end.
  - intros Hnone. unfold addNewState.
    rewrite (intern_fresh _ _ _ Hnone). simpl.
    repeat split.
    + apply dict_ok_next_unused. exact Hs.
    + rewrite length_app. simpl. lia.
  - unfold addNewState.
    pose proof (intern_again key (m_StateMap p) (m_StateVec p)) as Ha.
    destruct (intern key (m_StateMap p) (m_StateVec p)) as [[id m] v].
    simpl in *. rewrite Ha. reflexivity.
  - intros os'.
    assert (Hl : m_StateMap (addNewState key p).2 !! key
                 = Some (addNewState key p).1).
    { unfold addNewState.
      pose proof (intern_lookup key (m_StateMap p) (m_StateVec p)) as Hl.
      destruct (intern key _ _) as [[id m] v]. exact Hl. }
    pose proof (run_keeps_state os' (addNewState key p).2 key
                  (addNewState key p).1) as [Hm Hv].
    split; [apply Hm; exact Hl|].
    apply Hv. apply Hs1. exact Hl.
  - intros Hnone. unfold addNewObs.
    rewrite (intern_fresh _ _ _ Hnone). simpl.
    repeat split.
    + apply dict_ok_next_unused. exact Hf.
    + rewrite length_app. simpl. lia.
  - unfold addNewObs.
    pose proof (intern_again key (m_FeatureMap p) (m_FeatureVec p)) as Ha.
    destruct (intern key (m_FeatureMap p) (m_FeatureVec p)) as [[id m] v].
    simpl in *. rewrite Ha. reflexivity.
  - intros os'.
    assert (Hl : m_FeatureMap (addNewObs key p).2 !! key
                 = Some (addNewObs key p).1).
    { unfold addNewObs.
      pose proof (intern_lookup key (m_FeatureMap p) (m_FeatureVec p)) as Hl.
      destruct (intern key _ _) as [[id m] v]. exact Hl. }
    pose proof (run_keeps_obs os' (addNewObs key p).2 key
                  (addNewObs key p).1) as [Hm Hv].
    split; [apply Hm; exact Hl|].
    apply Hv. apply Hf1. exact Hl.
Qed.

(** *** Finalisation *)







(** *** The default state *)

(** Modelled from the spec: the test-time labels of one example, given by
  its label names.  "callers substitute the default state when a
  test-time label is missing"; "zero-length sequences are rejected":
  [None] is the rejection, the one error of this step. *)
Definition test_sequence (keys : list string) (p : t) : option (list nat) :=
  match keys with
  | [] => None
  | _ => Some ((fun key => test_label key p) <$> keys)
  end.

Lemma findState_None_iff (p : t) (key : string) :
  dict_ok (m_StateMap p) (m_StateVec p) ->
  findState key p = None <-> key ∉ m_StateVec p.
Proof.
  intros Hok. unfold findState. split.
  - intros Hnone Hin. apply list_elem_of_lookup in Hin as [id Hid].
    apply Hok in Hid. congruence.
  - intros Hnot. destruct (m_StateMap p !! key) as [id|] eqn:Hk; [|reflexivity].
    exfalso. apply Hnot. apply Hok in Hk.
    eapply list_elem_of_lookup_2. exact Hk.
Qed.

(** The label that the readers give a name at test time: a state of the
  dictionary; the state of that name when there is one, the default
  state otherwise. *)
Lemma test_label_spec (p : t) (key : string) :
  dict_ok (m_StateMap p) (m_StateVec p) ->
  m_default_oid p < length (m_StateVec p) ->
  test_label key p < sizeStateVec p /\
  (key ∈ m_StateVec p -> m_StateVec p !! test_label key p = Some key) /\
  (key ∉ m_StateVec p -> test_label key p = getDefaultState p).
Proof.
  intros Hok Hd. unfold test_label, sizeStateVec, getDefaultState.
  pose proof (findState_None_iff p key Hok) as Hnone.
  destruct (findState key p) as [id|] eqn:Hf.
  - unfold findState in Hf. apply Hok in Hf. split; [|split].
    + apply lookup_lt_Some in Hf. exact Hf.
    + intros _. exact Hf.
    + intros Hnot. exfalso. apply Hnot.
      eapply list_elem_of_lookup_2. exact Hf.
  - split; [exact Hd|]. split; [|reflexivity].
    intros Hin. exfalso. apply Hnone; [reflexivity | exact Hin].
Qed.

(** C6. Every store built by the operations of the store has the reserved
  default state in its state dictionary, under the id that no other name
  ever gets.  [findState] reports not-found exactly for the names that no
  state of the dictionary bears.  And the test-time labels of an example
  that is not empty are never the rejection, whichever of its names are
  missing: each label is a state of the dictionary, the state of the name
  when the dictionary has it and [getDefaultState] when it has not, so a
  miss yields the default label and is no error. *)
Theorem default_state_substituted (default_key : string) (os : list op)
    (keys : list string) :
  let p := run os (Parameter_new default_key) in
  getDefaultState p < sizeStateVec p /\
  m_StateVec p !! getDefaultState p = Some default_key /\
  findState default_key p = Some (getDefaultState p) /\
  (forall key, key <> default_key ->
               (addNewState key p).1 <> getDefaultState p) /\
  (forall key, findState key p = None <-> key ∉ m_StateVec p) /\
  (keys <> [] ->
   exists labels,
     test_sequence keys p = Some labels /\
     Forall2 (fun key l =>
                l < sizeStateVec p /\
                (key ∈ m_StateVec p -> m_StateVec p !! l = Some key) /\
                (key ∉ m_StateVec p -> l = getDefaultState p))
             keys labels).
Proof.
  intros p.
  assert (Hok : store_ok p) by apply run_store_ok, Parameter_new_ok.
  destruct Hok as (Hs & _ & Hd).
  assert (Hdef : getDefaultState p = 0).
  { unfold getDefaultState, p. rewrite run_default. reflexivity. }
  pose proof (run_keeps_state os (Parameter_new default_key) default_key 0)
    as [Hm Hv].
  fold p in Hm, Hv.
  assert (Hin : findState default_key p = Some 0).
  { apply Hm. unfold findState. simpl. apply lookup_singleton_eq. }
  assert (Hvec : m_StateVec p !! 0 = Some default_key) by (apply Hv; reflexivity).
  unfold sizeStateVec. rewrite Hdef.
  repeat match goal with |- _ /\ _ => split end.
  - unfold getDefaultState in Hdef. lia.
  - exact Hvec.
  - exact Hin.
  - intros key Hne. unfold addNewState, intern.
    destruct (m_StateMap p !! key) as [id|] eqn:Hk; simpl.
    + intros ->. apply Hs in Hk. congruence.
    + unfold getDefaultState in Hdef. lia.
  - intros key. apply findState_None_iff. exact Hs.
  - intros Hne. exists ((fun key => test_label key p) <$> keys). split.
    + unfold test_sequence. destruct keys; [contradiction | reflexivity].
    + apply Forall2_fmap_r. apply Forall_Forall2_diag.
      apply Forall_forall. intros key _.
      pose proof (test_label_spec p key Hs Hd) as Hspec.
      unfold sizeStateVec in Hspec. rewrite Hdef in Hspec. exact Hspec.
Qed.

End Param.

(** ** Viterbi search of the triangular models

  TriCRF1.h and TriCRF2.h declare [viterbiSearch(size_t& max_z, long
  double& prob)]; the bodies are in TriCRF1.cpp and TriCRF2.cpp.  The
  search is modelled from the specification of the inference engine, with
  the lattice values in exact rational arithmetic. *)

Module Viterbi.

Local Open Scope nat_scope.

(** The factors of one example for one topic: [R[t][y]] and
  [M[t][y_prev * S + y_cur]], with [M[0][y]] the potential of "start to
  [y]".  [n_state] is [S]; the length [T] is the number of rows of [R]. *)
Record lattice : Type := mkLattice {
  n_state : nat;
  R : list (list Q);
  M : list (list Q)
}.

Definition R_at (l : lattice) (t y : nat) : Q := nth y (nth t (R l) []) 0%Q.
Definition M_at (l : lattice) (t i : nat) : Q := nth i (nth t (M l) []) 0%Q.

(** Potentials are exponentials: none is negative. *)
Definition lattice_okb (l : lattice) : bool :=
  forallb (forallb (Qle_bool 0)) (R l) && forallb (forallb (Qle_bool 0)) (M l).

(** The first index among [0..n] at which [f] is greatest: the running
  best is replaced on a strictly greater value only. *)
Fixpoint argmax (f : nat -> Q) (n : nat) : nat :=
  match n with
  | O => O
  | S n' =>
      let b := argmax f n' in
      if Qlt_le_dec (f b) (f n) then n else b
  end.

(** Modelled from the spec: "Standard max-product linear-chain Viterbi with
  back-pointers" over the recurrences of the linear chain, with the sum
  over the previous state replaced by the maximum. *)
Definition delta0 (l : lattice) : list Q :=
  map (fun y => (R_at l 0 y * M_at l 0 y)%Q) (seq 0 (n_state l)).

Definition best_prev (l : lattice) (t : nat) (d : list Q) (y : nat) : nat :=
  argmax (fun y' => (nth y' d 0 * M_at l t (y' * n_state l + y))%Q)
         (n_state l - 1).

Definition step (l : lattice) (t : nat) (d : list Q) : list Q * list nat :=
  (map (fun y =>
          let b := best_prev l t d y in
          (R_at l t y * (nth b d 0 * M_at l t (b * n_state l + y)))%Q)
       (seq 0 (n_state l)),
   map (best_prev l t d) (seq 0 (n_state l))).

(** [steps] positions from position [t] on; the back-pointer tables are
  stacked, the latest position first. *)
Fixpoint forward_pass (l : lattice) (t steps : nat) (d : list Q)
    (psis : list (list nat)) : list Q * list (list nat) :=
  match steps with
  | O => (d, psis)
  | S k =>
      let '(d', psi) := step l t d in
      forward_pass l (S t) k d' (psi :: psis)
  end.

(** Following the back-pointers from the state [y] of the last position:
  the path, last position first. *)
Fixpoint backtrack (y : nat) (psis : list (list nat)) : list nat :=
  match psis with
  | [] => [y]
  | psi :: rest => y :: backtrack (nth y psi 0) rest
  end.

(** The best path and its score; "zero-length sequences are rejected". *)
Definition viterbi (l : lattice) : option (list nat * Q) :=
  match length (R l) with
  | O => None
  | S k =>
      let '(d, psis) := forward_pass l 1 k (delta0 l) [] in
      let yT := argmax (fun y => nth y d 0%Q) (n_state l - 1) in
      Some (rev (backtrack yT psis), nth yT d 0%Q)
  end.

(** The unnormalised score of a path, given last position first:
  the product of the node and edge potentials along it. *)
Fixpoint rscore (l : lattice) (t : nat) (rp : list nat) : Q :=
  match rp with
  | [] => 1%Q
  | y :: rest =>
      match rest with
      | [] => (R_at l 0 y * M_at l 0 y)%Q
      | y' :: _ =>
          (R_at l t y
           * (rscore l (t - 1) rest * M_at l t (y' * n_state l + y)))%Q
      end
  end.

Definition path_score (l : lattice) (ys : list nat) : Q :=
  rscore l (length ys - 1) (rev ys).

(** A labelling of the example: one state per position. *)
Definition is_path (l : lattice) (ys : list nat) : Prop :=
  length ys = length (R l) /\ Forall (fun y => y < n_state l) ys.

(** A topic [z] of a triangular model on one example: the topic prior
  [gamma[z]] and the factors of the topic. *)
Record topic : Type := mkTopic {
  gamma : Q;
  lat : lattice
}.

(** The value of topic [z]: [gamma[z] * score_z] with its best path. *)
Definition topic_value (tz : topic) : option (list nat * Q) :=
  match viterbi (lat tz) with
  | Some (ys, sc) => Some (ys, (gamma tz * sc)%Q)
  | None => None
  end.

(** Modelled from the spec: [viterbiSearch(max_z, prob)] of the triangular
  models: "Viterbi is run independently for each topic z producing
  (y_z, score_z); the chosen topic is argmax_z gamma[z] * score_z(y_z).
  Ties are broken by lower topic id."  The result is the path, [max_z]
  and [prob]. *)
Definition viterbiSearch (topics : list topic)
    : option (list nat * nat * Q) :=
  match mapM topic_value topics with
  | None => None
  | Some [] => None
  | Some vs =>
      let max_z := argmax (fun z => (nth z vs ([], 0%Q)).2) (length vs - 1) in
      Some ((nth max_z vs ([], 0%Q)).1, max_z, (nth max_z vs ([], 0%Q)).2)
  end.

(** An example the engine accepts for a topic: potentials that are not
  negative, at least one state and at least one position. *)
Definition topic_okb (tz : topic) : bool :=
  lattice_okb (lat tz)
  && (0 <? n_state (lat tz)) && (0 <? length (R (lat tz))).

(** *** A two-topic example *)

Definition demo_flight : topic :=
  mkTopic (1 # 2)
          (mkLattice 2 [[1; 2]; [3; 1]]%Q
                       [[1; 1; 0; 0]; [1; 2; 1; 1]]%Q).

Definition demo_hotel : topic :=
  mkTopic 1
          (mkLattice 2 [[1; 1]; [1; 3]]%Q
                       [[1; 1; 0; 0]; [1; 1; 1; 1]]%Q).

Example demo_viterbi_flight : viterbi (lat demo_flight) = Some ([1; 0], 6%Q).
Proof. vm_compute. reflexivity. Qed.

Example demo_viterbi_hotel : viterbi (lat demo_hotel) = Some ([0; 1], 3%Q).
Proof. vm_compute. reflexivity. Qed.

Example demo_search_tie :
  viterbiSearch [demo_flight; demo_hotel] = Some ([1; 0], 0, ((1 # 2) * 6)%Q) /\
  viterbiSearch [demo_hotel; demo_flight] = Some ([0; 1], 0, (1 * 3)%Q).
Proof. vm_compute. split; reflexivity. Qed.

(** *** The running maximum *)

Lemma argmax_le (f : nat -> Q) (n : nat) : argmax f n <= n.
Proof.
  induction n as [|n IH]; simpl; [lia|].
  destruct (Qlt_le_dec (f (argmax f n)) (f (S n))); lia.
Qed.

Lemma argmax_max (f : nat -> Q) (n i : nat) :
  i <= n -> (f i <= f (argmax f n))%Q.
Proof.
  induction n as [|n IH]; intros Hi.
  - assert (i = 0) as -> by lia. apply Qle_refl.
  - simpl. destruct (Qlt_le_dec (f (argmax f n)) (f (S n))) as [Hlt|Hle];
      destruct (decide (i = S n)) as [->|Hne].
    + apply Qle_refl.
    + apply Qle_trans with (f (argmax f n)); [apply IH; lia|].
      apply Qlt_le_weak. exact Hlt.
    + exact Hle.
    + apply IH. lia.
Qed.

Lemma argmax_first (f : nat -> Q) (n i : nat) :
  i < argmax f n -> (f i < f (argmax f n))%Q.
Proof.
  induction n as [|n IH]; simpl; [lia|].
  destruct (Qlt_le_dec (f (argmax f n)) (f (S n))) as [Hlt|Hle]; intros Hi.
  - apply Qle_lt_trans with (f (argmax f n)); [|exact Hlt].
    apply argmax_max. lia.
  - apply IH. exact Hi.
Qed.

(** *** Lists and potentials *)

Lemma nth_map_seq {A : Type} (f : nat -> A) (n i : nat) (d : A) :
  i < n -> nth i (map f (seq 0 n)) d = f i.
Proof.
  intros Hi.
  rewrite (nth_indep _ d (f 0)) by (rewrite length_map, length_seq; exact Hi).
  rewrite map_nth, seq_nth by exact Hi. reflexivity.
Qed.

Lemma Qmult_le_compat_left (x y z : Q) :
  (x <= y)%Q -> (0 <= z)%Q -> (z * x <= z * y)%Q.
Proof.
  intros Hxy Hz. rewrite (Qmult_comm z x), (Qmult_comm z y).
  apply Qmult_le_compat_r; assumption.
Qed.

Lemma row_nonneg (row : list Q) (i : nat) :
  forallb (Qle_bool 0) row = true -> (0 <= nth i row 0)%Q.
Proof.
  revert i. induction row as [|q row IH]; intros [|i] H; simpl;
    try apply Qle_refl; simpl in H; apply andb_prop in H as [H1 H2].
  - apply Qle_bool_imp_le. exact H1.
  - apply IH. exact H2.
Qed.

Lemma rows_nonneg (rows : list (list Q)) (t i : nat) :
  forallb (forallb (Qle_bool 0)) rows = true ->
  (0 <= nth i (nth t rows []) 0)%Q.
Proof.
  revert t. induction rows as [|row rows IH]; intros [|t] H; simpl;
    try (destruct i; apply Qle_refl); simpl in H;
    apply andb_prop in H as [H1 H2].
  - apply row_nonneg. exact H1.
  - apply IH. exact H2.
Qed.

Lemma lattice_ok_nonneg (l : lattice) :
  lattice_okb l = true ->
  (forall t y, (0 <= R_at l t y)%Q) /\ (forall t i, (0 <= M_at l t i)%Q).
Proof.
  unfold lattice_okb. intros H. apply andb_prop in H as [HR HM].
  split; intros; [apply rows_nonneg, HR | apply rows_nonneg, HM].
Qed.

Lemma backtrack_head (y : nat) (psis : list (list nat)) :
  exists tl, backtrack y psis = y :: tl.
Proof. destruct psis; simpl; eauto. Qed.

Lemma rscore_cons (l : lattice) (t y y' : nat) (rest : list nat) :
  rscore l (S t) (y :: y' :: rest) =
  (R_at l (S t) y
   * (rscore l t (y' :: rest) * M_at l (S t) (y' * n_state l + y)))%Q.
Proof.
  change (rscore l (S t) (y :: y' :: rest)) with
    (R_at l (S t) y
     * (rscore l (S t - 1) (y' :: rest)
        * M_at l (S t) (y' * n_state l + y)))%Q.
  replace (S t - 1) with t by lia. reflexivity.
Qed.

(** *** The forward pass *)

Section Pass.

Variable l : lattice.
Hypothesis R_nonneg : forall t y, (0 <= R_at l t y)%Q.
Hypothesis M_nonneg : forall t i, (0 <= M_at l t i)%Q.
Hypothesis states : 0 < n_state l.

(** After position [t]: [d] holds, for each state, the score of the path
  that the back-pointers give, and no path ending there scores more. *)
Definition inv (t : nat) (d : list Q) (psis : list (list nat)) : Prop :=
  length d = n_state l /\
  forall y, y < n_state l ->
    length (backtrack y psis) = S t /\
    Forall (fun y' => y' < n_state l) (backtrack y psis) /\
    nth y d 0%Q = rscore l t (backtrack y psis) /\
    forall rp,
      length rp = S t ->
      Forall (fun y' => y' < n_state l) rp ->
      head rp = Some y ->
      (rscore l t rp <= nth y d 0)%Q.

Lemma inv_init : inv 0 (delta0 l) [].
Proof.
  split; [unfold delta0; rewrite length_map, length_seq; reflexivity|].
  intros y Hy. unfold delta0. rewrite nth_map_seq by exact Hy. simpl.
  repeat split.
  - constructor; [exact Hy | constructor].
  - intros rp Hlen _ Hhd.
    destruct rp as [|y0 [|y1 rp]]; simpl in Hlen, Hhd; try discriminate.
    injection Hhd as ->. simpl. apply Qle_refl.
Qed.

Lemma best_prev_lt (t : nat) (d : list Q) (y : nat) :
  best_prev l t d y < n_state l.
Proof.
  unfold best_prev.
  pose proof (argmax_le
    (fun y' => (nth y' d 0 * M_at l t (y' * n_state l + y))%Q)
    (n_state l - 1)).
  lia.
Qed.

Lemma inv_step (t : nat) (d : list Q) (psis : list (list nat)) :
  inv t d psis ->
  inv (S t) (step l (S t) d).1 ((step l (S t) d).2 :: psis).
Proof.
  intros [Hlen Hinv]. unfold step. cbn [fst snd].
  split; [rewrite length_map, length_seq; reflexivity|].
  intros y Hy. cbn [backtrack].
  rewrite !nth_map_seq by exact Hy. cbv zeta.
  set (b := best_prev l (S t) d y).
  assert (Hb : b < n_state l) by apply best_prev_lt.
  destruct (Hinv b Hb) as (Hbl & Hbf & Hbs & _).
  destruct (backtrack_head b psis) as [tl Htl].
  repeat split.
  - simpl. rewrite Hbl. reflexivity.
  - constructor; [exact Hy | exact Hbf].
  - rewrite Htl, rscore_cons, <- Htl, <- Hbs. reflexivity.
  - intros rp Hrl Hrf Hhd.
    destruct rp as [|y0 [|y1 rp]]; simpl in Hrl, Hhd; try discriminate.
    injection Hhd as ->.
    rewrite rscore_cons.
    apply Forall_cons in Hrf as [_ Hrf].
    pose proof Hrf as Hrf'. apply Forall_cons in Hrf' as [Hy1 _].
    destruct (Hinv y1 Hy1) as (_ & _ & _ & Hopt).
    apply Qmult_le_compat_left; [|apply R_nonneg].
    apply Qle_trans
      with (nth y1 d 0 * M_at l (S t) (y1 * n_state l + y))%Q.
    + apply Qmult_le_compat_r; [|apply M_nonneg].
      apply Hopt; [simpl; lia | exact Hrf | reflexivity].
    + subst b. unfold best_prev.
      apply (argmax_max
        (fun y' => (nth y' d 0 * M_at l (S t) (y' * n_state l + y))%Q)).
      lia.
Qed.

Lemma forward_pass_inv (k t : nat) (d : list Q) (psis : list (list nat)) :
  inv t d psis ->
  inv (t + k) (forward_pass l (S t) k d psis).1
              (forward_pass l (S t) k d psis).2.
Proof.
  revert t d psis. induction k as [|k IH]; intros t d psis Hinv.
  - rewrite Nat.add_0_r. exact Hinv.
  - cbn [forward_pass]. unfold step. 
    replace (t + S k) with (S t + k) by lia.
    apply IH. apply (inv_step t d psis Hinv).
Qed.

(** Viterbi returns a labelling of the example whose score is the
  greatest score of a labelling. *)
Lemma viterbi_best :
  0 < length (R l) ->
  exists ys sc,
    viterbi l = Some (ys, sc) /\
    is_path l ys /\
    path_score l ys = sc /\
    forall ys', is_path l ys' -> (path_score l ys' <= sc)%Q.
Proof.
  intros HT. unfold viterbi.
  destruct (length (R l)) as [|k] eqn:Hk; [lia|].
  pose proof (forward_pass_inv k 0 (delta0 l) [] inv_init) as Hinv.
  destruct (forward_pass l 1 k (delta0 l) []) as [d psis].
  cbn [fst snd] in Hinv. simpl in Hinv. destruct Hinv as [Hlen Hinv].
  set (yT := argmax (fun y => nth y d 0%Q) (n_state l - 1)).
  assert (HyT : yT < n_state l).
  { pose proof (argmax_le (fun y => nth y d 0%Q) (n_state l - 1)).
    subst yT. lia. }
  destruct (Hinv yT HyT) as (Hbl & Hbf & Hbs & _).
  eexists _, _. split; [reflexivity|].
  split; [|split].
  - unfold is_path. rewrite length_rev, Hbl, Hk. split; [reflexivity|].
    apply Forall_rev. exact Hbf.
  - unfold path_score. rewrite length_rev, rev_involutive, Hbl.
    replace (S k - 1) with k by lia. symmetry. exact Hbs.
  - intros ys' [Hl' Hf']. unfold path_score.
    assert (Hrl : length (rev ys') = S k) by (rewrite length_rev; lia).
    destruct (rev ys') as [|y rp] eqn:Hrev; [discriminate|].
    assert (Hrf : Forall (fun y' => y' < n_state l) (y :: rp)).
    { rewrite <- Hrev. apply Forall_rev. exact Hf'. }
    pose proof Hrf as Hrf'. apply Forall_cons in Hrf' as [Hy _].
    destruct (Hinv y Hy) as (_ & _ & _ & Hopt).
    rewrite Hl', Hk. replace (S k - 1) with k by lia.
    apply Qle_trans with (nth y d 0%Q).
    + apply Hopt; [exact Hrl | exact Hrf | reflexivity].
    + subst yT. apply (argmax_max (fun y => nth y d 0%Q)). lia.
Qed.

End Pass.

(** *** The search over the topics *)

Lemma topic_value_best (tz : topic) :
  topic_okb tz = true ->
  exists ys sc,
    viterbi (lat tz) = Some (ys, sc) /\
    topic_value tz = Some (ys, (gamma tz * sc)%Q) /\
    is_path (lat tz) ys /\
    path_score (lat tz) ys = sc /\
    forall ys', is_path (lat tz) ys' -> (path_score (lat tz) ys' <= sc)%Q.
Proof.
  unfold topic_okb. intros H.
  apply andb_prop in H as [H HT]. apply andb_prop in H as [Hok HS].
  apply Nat.ltb_lt in HT. apply Nat.ltb_lt in HS.
  destruct (lattice_ok_nonneg _ Hok) as [HR HM].
  destruct (viterbi_best (lat tz) HR HM HS HT) as (ys & sc & Hv & Hp & Hs & Hb).
  exists ys, sc. unfold topic_value. rewrite Hv. auto.
Qed.

Lemma viterbiSearch_some (topics : list topic) (vs : list (list nat * Q)) :
  mapM topic_value topics = Some vs ->
  vs <> [] ->
  let max_z := argmax (fun z => (nth z vs ([], 0%Q)).2) (length vs - 1) in
  viterbiSearch topics =
    Some ((nth max_z vs ([], 0%Q)).1, max_z, (nth max_z vs ([], 0%Q)).2).
Proof.
  intros Hm Hne. unfold viterbiSearch. rewrite Hm.
  destruct vs; [contradiction | reflexivity].
Qed.

(** C7. On every example the engine accepts, the search runs Viterbi for
  each topic [z] on the factors of that topic alone, which gives a best
  path [ys] of the topic with its score [sc]; the topic returned
  maximises [gamma[z] * sc] over the topics, every topic with a lower id
  has a strictly smaller value, so that on equal values the lower id is
  chosen, and the path and [prob] returned are those of that topic. *)
Theorem viterbiSearch_argmax (topics : list topic) :
  topics <> [] ->
  forallb topic_okb topics = true ->
  exists path max_z prob,
    viterbiSearch topics = Some (path, max_z, prob) /\
    max_z < length topics /\
    forall z tz,
      topics !! z = Some tz ->
      exists ys sc,
        viterbi (lat tz) = Some (ys, sc) /\
        is_path (lat tz) ys /\
        path_score (lat tz) ys = sc /\
        (forall ys', is_path (lat tz) ys' ->
                     (path_score (lat tz) ys' <= sc)%Q) /\
        (gamma tz * sc <= prob)%Q /\
        (z < max_z -> (gamma tz * sc < prob)%Q) /\
        (z = max_z -> path = ys /\ prob = (gamma tz * sc)%Q).
Proof.
  intros Hne Hok.
  assert (Hall : Forall (fun tz => topic_okb tz = true) topics).
  { apply Forall_forall. intros tz Hin.
    rewrite forallb_forall in Hok. apply Hok.
    apply list_elem_of_In. exact Hin. }
  assert (Hsome : is_Some (mapM topic_value topics)).
  { apply mapM_is_Some_2. eapply Forall_impl; [exact Hall|].
    intros tz Htz. simpl.
    destruct (topic_value_best tz Htz) as (ys & sc & _ & Hv & _).
    rewrite Hv. eauto. }
  destruct Hsome as [vs Hvs].
  pose proof (length_mapM _ _ _ Hvs) as Hlen.
  assert (Hvne : vs <> []).
  { intros ->. destruct topics; [contradiction | discriminate]. }
  pose proof (viterbiSearch_some topics vs Hvs Hvne) as Hsearch.
  cbv zeta in Hsearch.
  set (f := fun z => (nth z vs ([], 0%Q)).2) in *.
  set (max_z := argmax f (length vs - 1)) in *.
  assert (Hlt : max_z < length topics).
  { pose proof (argmax_le f (length vs - 1)).
    destruct vs; [contradiction|]. simpl in *. subst max_z. lia. }
  eexists _, _, _. split; [exact Hsearch|]. split; [exact Hlt|].
  intros z tz Hz.
  apply mapM_Some_1 in Hvs.
  destruct (Forall2_lookup_l _ _ _ _ _ Hvs Hz) as (v & Hv & Htv).
  rewrite Forall_forall in Hall.
  assert (Htz : topic_okb tz = true).
  { apply Hall. eapply list_elem_of_lookup_2. exact Hz. }
  destruct (topic_value_best tz Htz) as (ys & sc & Hvit & Hval & Hp & Hs & Hb).
  rewrite Hval in Htv. injection Htv as <-.
  assert (Hfz : f z = (gamma tz * sc)%Q).
  { unfold f. rewrite (nth_lookup_Some _ _ _ _ Hv). reflexivity. }
  assert (Hzlt : z < length vs).
  { apply lookup_lt_Some in Hv. exact Hv. }
  exists ys, sc.
  split; [exact Hvit|]. split; [exact Hp|]. split; [exact Hs|].
  split; [exact Hb|]. split; [|split; [|split]].
  - rewrite <- Hfz. change ((nth max_z vs ([], 0%Q)).2) with (f max_z).
    apply argmax_max. lia.
  - intros Hzm. rewrite <- Hfz.
    change ((nth max_z vs ([], 0%Q)).2) with (f max_z).
    apply argmax_first. exact Hzm.
  - subst z. rewrite (nth_lookup_Some _ _ _ _ Hv). reflexivity.
  - subst z. rewrite (nth_lookup_Some _ _ _ _ Hv). reflexivity.
Qed.

Lemma viterbiSearch_argmax_witness :
  [demo_flight; demo_hotel] <> [] /\
  forallb topic_okb [demo_flight; demo_hotel] = true /\
  exists path max_z prob,
    viterbiSearch [demo_flight; demo_hotel] = Some (path, max_z, prob) /\
    max_z < length [demo_flight; demo_hotel] /\
    forall z tz,
      [demo_flight; demo_hotel] !! z = Some tz ->
      exists ys sc,
        viterbi (lat tz) = Some (ys, sc) /\
        is_path (lat tz) ys /\
        path_score (lat tz) ys = sc /\
        (forall ys', is_path (lat tz) ys' ->
                     (path_score (lat tz) ys' <= sc)%Q) /\
        (gamma tz * sc <= prob)%Q /\
        (z < max_z -> (gamma tz * sc < prob)%Q) /\
        (z = max_z -> path = ys /\ prob = (gamma tz * sc)%Q).
Proof.
  split; [discriminate|]. split; [reflexivity|].
  apply (viterbiSearch_argmax [demo_flight; demo_hotel]);
    [discriminate | reflexivity].
Defined.

End Viterbi.

(** ** Forward, backward and the partition function

  [forward], [backward] and [getPartitionZ] are declared in the model
  headers and defined in the .cpp files.  The recurrences of the
  specification are stated here in exact rational arithmetic, where the
  node marginals of a position sum to exactly one; the rounding of the
  [long double] lattice of the implementation is outside this model. *)

Module ForwardBackward.

Import Viterbi.

Local Open Scope Q_scope.

(** The sum of [f 0], ..., [f (n - 1)]. *)
Fixpoint qsum (f : nat -> Q) (n : nat) : Q :=
  match n with
  | O => 0
  | S k => qsum f k + f k
  end.

(** Modelled from the spec: "alpha[0][y] = R[0][y] * M[0][y]" and
  "alpha[t][y] = R[t][y] * sum_y' alpha[t-1][y'] * M[t][y' * S + y]". *)
Fixpoint alpha (l : lattice) (t y : nat) : Q :=
  match t with
  | O => R_at l 0 y * M_at l 0 y
  | S t' =>
      R_at l t y
      * qsum (fun y' => alpha l t' y' * M_at l t (y' * n_state l + y)%nat)
             (n_state l)
  end.

(** Modelled from the spec: "beta[T-1][y] = 1" and "beta[t][y] = sum_y'
  R[t+1][y'] * beta[t+1][y'] * M[t+1][y * S + y']"; [k] positions are left
  after position [t]. *)
Fixpoint beta_from (l : lattice) (t k y : nat) : Q :=
  match k with
  | O => 1
  | S k' =>
      qsum (fun y' => R_at l (S t) y' * beta_from l (S t) k' y'
                      * M_at l (S t) (y * n_state l + y')%nat)
           (n_state l)
  end.

Definition beta (l : lattice) (t y : nat) : Q :=
  beta_from l t (length (R l) - 1 - t) y.

(** Modelled from the spec: "Z = sum_y alpha[T-1][y]". *)
Definition getPartitionZ (l : lattice) : Q :=
  qsum (alpha l (length (R l) - 1)) (n_state l).

(** Modelled from the spec: "Node marginal p(y_t = y | x) =
  alpha[t][y] * beta[t][y] / Z". *)
Definition node_marginal (l : lattice) (t y : nat) : Q :=
  alpha l t y * beta l t y / getPartitionZ l.

Example demo_marginals :
  Qred (getPartitionZ (lat demo_flight)) = 13 /\
  Qred (node_marginal (lat demo_flight) 0 0) = 5 # 13 /\
  Qred (node_marginal (lat demo_flight) 0 1) = 8 # 13 /\
  Qred (qsum (node_marginal (lat demo_flight) 1) 2) = 1.
Proof. vm_compute. repeat split; reflexivity. Qed.

(** *** Finite sums *)

Lemma qsum_ext (f g : nat -> Q) (n : nat) :
  (forall i, (i < n)%nat -> f i == g i) -> qsum f n == qsum g n.
Proof.
  induction n as [|n IH]; intros H; simpl; [reflexivity|].
  rewrite IH by (intros i Hi; apply H; lia).
  rewrite (H n) by lia. reflexivity.
Qed.

Lemma qsum_plus (f g : nat -> Q) (n : nat) :
  qsum (fun i => f i + g i) n == qsum f n + qsum g n.
Proof.
  induction n as [|n IH]; simpl; [ring|]. rewrite IH. ring.
Qed.

Lemma qsum_scale (c : Q) (f : nat -> Q) (n : nat) :
  qsum (fun i => c * f i) n == c * qsum f n.
Proof.
  induction n as [|n IH]; simpl; [ring|]. rewrite IH. ring.
Qed.

Lemma qsum_swap (f : nat -> nat -> Q) (n m : nat) :
  qsum (fun i => qsum (fun j => f i j) m) n
  == qsum (fun j => qsum (fun i => f i j) n) m.
Proof.
  induction n as [|n IH]; simpl.
  - induction m as [|m IHm]; simpl; [reflexivity|]. rewrite <- IHm. ring.
  - rewrite IH. rewrite qsum_plus. reflexivity.
Qed.

(** *** The marginals of a position *)

(** One step of the backward recurrence keeps the sum of the products
  [alpha * beta]. *)
Lemma alpha_beta_step (l : lattice) (t k : nat) :
  qsum (fun y => alpha l t y * beta_from l t (S k) y) (n_state l)
  == qsum (fun y => alpha l (S t) y * beta_from l (S t) k y) (n_state l).
Proof.
  set (S := n_state l).
  transitivity
    (qsum (fun y =>
       qsum (fun y' =>
         alpha l t y * M_at l (Datatypes.S t) (y * S + y')%nat
         * (R_at l (Datatypes.S t) y' * beta_from l (Datatypes.S t) k y')) S) S).
  { apply qsum_ext. intros y _. cbn [beta_from]. fold S.
    rewrite <- qsum_scale. apply qsum_ext. intros y' _. ring. }
  rewrite qsum_swap.
  apply qsum_ext. intros y' _. cbn [alpha]. fold S.
  transitivity
    (R_at l (Datatypes.S t) y' * beta_from l (Datatypes.S t) k y'
     * qsum (fun y => alpha l t y * M_at l (Datatypes.S t) (y * S + y')%nat) S).
  - rewrite <- qsum_scale. apply qsum_ext. intros y _. ring.
  - ring.
Qed.

Lemma alpha_beta_sum (l : lattice) (k t : nat) :
  qsum (fun y => alpha l t y * beta_from l t k y) (n_state l)
  == qsum (alpha l (t + k)) (n_state l).
Proof.
  revert t. induction k as [|k IH]; intros t.
  - rewrite Nat.add_0_r. apply qsum_ext. intros y _. simpl. ring.
  - rewrite alpha_beta_step, IH.
    replace (Datatypes.S t + k)%nat with (t + Datatypes.S k)%nat by lia.
    reflexivity.
Qed.

(** In exact arithmetic the node marginals of every position of an
  example sum to one, whenever the partition function is not zero. *)
Lemma node_marginals_sum_to_one (l : lattice) (t : nat) :
  (t < length (R l))%nat ->
  ~ getPartitionZ l == 0 ->
  qsum (node_marginal l t) (n_state l) == 1.
Proof.
  intros Ht HZ. unfold node_marginal, Qdiv.
  transitivity
    (/ getPartitionZ l
     * qsum (fun y => alpha l t y * beta l t y) (n_state l)).
  { rewrite <- qsum_scale. apply qsum_ext. intros y _. ring. }
  unfold beta. rewrite alpha_beta_sum.
  replace (t + (length (R l) - 1 - t))%nat with (length (R l) - 1)%nat by lia.
  fold (getPartitionZ l). rewrite Qmult_comm. apply Qmult_inv_r. exact HZ.
Qed.

End ForwardBackward.
